(** * bling: the method decorators, embedded and verified

    A shallow embedding of the call-wrapping decorators of
    [@eklabdev/bling] (Retry, Timeout, CircuitBreaker, RateLimited,
    Cached, DebounceSync / DebounceAsync, and the scheduling cleanup),
    followed by the properties the specification states about them.

    Conventions of the embedding:
    - [Date.now()] is an explicit integer argument (milliseconds);
    - a JS [Error] is a record holding its [message];
    - the wrapped method ([target]) is not interpreted: each invocation is
      described by the [outcome] it has, and every invocation is recorded
      in an event trace, so that "the operation is not invoked" is a
      statement about the trace;
    - closure-level and module-level state ([circuitState],
      [rateLimitState], [cache], [methodCacheKeys], [timeoutMap]) is
      threaded explicitly;
    - where a wrapper stores the value of a promise in a [.then]
      callback ([Cached], [Memoize]), the part that runs before the
      wrapper returns and the later store are also given as separate
      events, so that calls can overlap;
    - a [Map<string, _>] used as a dictionary is a [gmap string _], a
      [Set<string>] is a [gset string]. *)

From Equations Require Import Equations.
From stdpp Require Import gmap strings list fin_maps pretty.
From Stdlib Require Import ZArith Lia.

Local Open Scope Z_scope.

(** ** Shared vocabulary *)

(** [new Error(msg)]: only the message is observable. *)
Record Error : Type := mkError { message : string }.

#[global] Instance Error_eq_dec : EqDecision Error.
Proof. solve_decision. Defined.

(** What one invocation [target.apply(this, args)] does. The decorators
    branch on [result instanceof Promise], so the four cases are kept
    apart. *)
Inductive outcome (V : Type) : Type :=
| Returns (v : V)      (* returns a plain value *)
| Throws (e : Error)   (* throws before returning *)
| Resolves (v : V)     (* returns a promise that is later fulfilled *)
| Rejects (e : Error). (* returns a promise that is later rejected *)
Arguments Returns {V} v.
Arguments Throws {V} e.
Arguments Resolves {V} v.
Arguments Rejects {V} e.

(** The settled state of a promise handed back to the caller. *)
Inductive settled (V : Type) : Type :=
| Fulfilled (v : V)
| Rejected (e : Error).
Arguments Fulfilled {V} v.
Arguments Rejected {V} e.

Definition succeeds {V} (o : outcome V) : bool :=
  match o with
  | Returns _ | Resolves _ => true
  | Throws _ | Rejects _ => false
  end.

(** [try { return await target() } catch (error) { ... }]: the value
    the [try] block returns, or the error its [catch] block receives. A
    synchronous throw and an awaited rejection reach the same handler. *)
Definition awaited {V} (o : outcome V) : V + Error :=
  match o with
  | Returns v | Resolves v => inl v
  | Throws e | Rejects e => inr e
  end.

(** ** Retry (part_002, lines 7-59) *)

Module Retry.

Inductive Strategy : Type := fixed | exponential.

(** [RetryOptions]. [backoff] is optional and defaults to 1000;
    [onRetry] is optional: [hasOnRetry] says whether it was given, and
    its calls are the [OnRetry] events of the trace. *)
Record RetryOptions : Type := mkOptions {
  maxRetries : Z;
  strategy : Strategy;
  backoff : option Z;
  hasOnRetry : bool
}.

Inductive event : Type :=
| Invoke                            (* target.apply(this, args) *)
| OnRetry (error : Error) (attempts : Z)  (* onRetry(error, attempts) *)
| Sleep (delay : Z).                (* await setTimeout(resolve, delay) *)

#[global] Instance event_eq_dec : EqDecision event.
Proof. solve_decision. Defined.

Section Retry.
Variable options : RetryOptions.
Context {V : Type}.
(** The behaviour of the wrapped method at its n-th invocation of one
    wrapper call (n is the value of [attempts] when it is invoked). *)
Variable target : Z -> outcome V.

Definition backoffMs : Z := default 1000 (backoff options).

(** [strategy === 'exponential' ? backoff * Math.pow(2, attempts - 1) : backoff] *)
Definition delay (attempts : Z) : Z :=
  match strategy options with
  | exponential => backoffMs * 2 ^ (attempts - 1)
  | fixed => backoffMs
  end.

Definition notify (error : Error) (attempts : Z) : list event :=
  if hasOnRetry options then [OnRetry error attempts] else [].

(** [execute], with the closure variable [attempts] as its argument:
    the value before the [attempts++] of this round. The recursion stops
    because a retry happens only while [attempts < maxRetries + 1]. *)
Equations? execute (attempts : Z) : settled V * list event
  by wf (Z.to_nat (maxRetries options + 1 - attempts)) lt :=
  execute attempts with awaited (target (attempts + 1)) => {
    | inl v := (Fulfilled v, [Invoke]);
    | inr error with Z_le_dec (maxRetries options + 1) (attempts + 1) => {
        | left _ := (Rejected error, [Invoke]);
        | right _ :=
            let '(r, ev) := execute (attempts + 1) in
            (r, Invoke :: notify error (attempts + 1)
                  ++ Sleep (delay (attempts + 1)) :: ev) } }.
Proof. lia. Qed.

(** [let attempts = 0; return execute()] *)
Definition replacementMethod : settled V * list event := execute 0.

End Retry.

Definition invocations (ev : list event) : nat :=
  length (filter (fun e => e = Invoke) ev).

Definition retryAttempts (ev : list event) : list Z :=
  omap (fun e => match e with OnRetry _ n => Some n | _ => None end) ev.

Definition retryErrors (ev : list event) : list Error :=
  omap (fun e => match e with OnRetry err _ => Some err | _ => None end) ev.

(** Sample inputs: three retries with exponential backoff from 10 ms,
    and a target whose n-th invocation rejects with "fail n". *)
Definition demoOptions : RetryOptions :=
  {| maxRetries := 3; strategy := exponential; backoff := Some 10;
     hasOnRetry := true |}.

Definition failN (n : Z) : Error := mkError ("fail " +:+ pretty n).

Definition alwaysFailing (n : Z) : outcome string := Rejects (failN n).

(** The waits of a trace, in order. *)
Definition sleeps (ev : list event) : list Z :=
  omap (fun e => match e with Sleep d => Some d | _ => None end) ev.

(** What a failed attempt that is retried leaves in the trace: the
    invocation, the callback if there is one, the wait. *)
Definition failedRound (options : RetryOptions) (error : Error)
    (attempts : Z) : list event :=
  Invoke :: notify options error attempts ++ [Sleep (delay options attempts)].

(** A target that fails twice and then resolves. *)
Definition flaky (n : Z) : outcome string :=
  if n <? 3 then Rejects (failN n) else Resolves "ok".

End Retry.

(** ** Timeout (part_002, lines 65-89) *)

Module Timeout.

(** One call of the wrapper, seen from the event loop: the promise that
    [Promise.race] returned ([None] while pending) and whether the timer
    created by [setTimeout] is still armed. The wrapper keeps no handle
    of the timer and never calls [clearTimeout]: only firing disarms. *)
Record State (V : Type) : Type := mkState {
  result : option (settled V);
  timerArmed : bool
}.
Arguments mkState {V} result timerArmed.
Arguments result {V} s.
Arguments timerArmed {V} s.

(** What the event loop delivers after the call. *)
Inductive event (V : Type) : Type :=
| MethodSettles (s : settled V)   (* methodPromise settles *)
| TimerFires.                     (* the setTimeout callback runs *)
Arguments MethodSettles {V} s.
Arguments TimerFires {V}.

Section Timeout.
Variable ms : Z.
Variable methodName : string.
Context {V : Type}.

(** [new Error(`${methodName} timed out after ${ms}ms`)] *)
Definition timeoutError : Error :=
  mkError (methodName +:+ " timed out after " +:+ pretty ms +:+ "ms").

(** A settlement reaching the promise of [Promise.race]: the first one
    decides, later ones are dropped. *)
Definition race (s : settled V) (st : State V) : State V :=
  match result st with
  | None => mkState (Some s) (timerArmed st)
  | Some _ => st
  end.

(** [replacementMethod]. A target that throws makes the wrapper throw
    before any timer exists. A plain return value gives an already
    fulfilled [methodPromise], which wins the race before any timer
    callback can run. Otherwise the race is pending, timer armed. *)
Definition replacementMethod (does : outcome V) : Error + State V :=
  match does with
  | Throws e => inl e
  | Returns v => inr (mkState (Some (Fulfilled v)) true)
  | Resolves _ | Rejects _ => inr (mkState None true)
  end.

Definition deliver (st : State V) (ev : event V) : State V :=
  match ev with
  | MethodSettles s => race s st
  | TimerFires =>
      if timerArmed st
      then race (Rejected timeoutError) (mkState (result st) false)
      else st
  end.

Definition deliverAll (evs : list (event V)) (st : State V) : State V :=
  fold_left deliver evs st.

End Timeout.

Definition isTimerFires {V} (ev : event V) : bool :=
  match ev with TimerFires => true | MethodSettles _ => false end.

(** Sample: [@Timeout(50) slow()] whose promise is still pending. *)
Definition slowPending : State string := mkState None true.

End Timeout.

(** ** CircuitBreaker (part_002, lines 95-177) *)

Module CircuitBreaker.

Inductive State : Type := closed | open | half_open.

#[global] Instance State_eq_dec : EqDecision State.
Proof. solve_decision. Defined.

(** [a !== b] on the three state names is [negb (State_eqb a b)]. *)
Definition State_eqb (a b : State) : bool :=
  match a, b with
  | closed, closed | open, open | half_open, half_open => true
  | _, _ => false
  end.

(** [const circuitState = { failures: 0, state: 'closed', lastFailureTime: 0 }] *)
Record CircuitState : Type := mkCircuit {
  failures : Z;
  state : State;
  lastFailureTime : Z
}.

Definition circuitState0 : CircuitState :=
  {| failures := 0; state := closed; lastFailureTime := 0 |}.

(** [CircuitBreakerOptions]; the optional [onStateChange] callback is
  observed through the [StateChange] events of the trace. *)
Record Options : Type := mkOptions {
  failureThreshold : Z;
  resetTimeout : Z
}.

Inductive event : Type :=
| Invoke                     (* target.apply(this, args) *)
| StateChange (s : State).   (* options.onStateChange?.(s) *)

#[global] Instance event_eq_dec : EqDecision event.
Proof. solve_decision. Defined.

Section Breaker.
Variable options : Options.
Context {V : Type}.

(** [updateState]: assigns and notifies only on an actual change. *)
Definition updateState (newState : State) (c : CircuitState)
  : CircuitState * list event :=
  if State_eqb (state c) newState then (c, [])
  else ({| failures := failures c; state := newState;
           lastFailureTime := lastFailureTime c |},
        [StateChange newState]).

(** [handleFailure]; [now] is the [Date.now()] read inside it. *)
Definition handleFailure (now : Z) (c : CircuitState)
  : CircuitState * list event :=
  let c1 := {| failures := failures c + 1; state := state c;
               lastFailureTime := now |} in
  if failureThreshold options <=? failures c1
  then updateState open c1
  else (c1, []).

(** The success branch shared by the [.then] callback and the
    synchronous path:
    [if (state === 'half-open') { updateState('closed'); failures = 0 }]. *)
Definition handleSuccess (c : CircuitState) : CircuitState * list event :=
  match state c with
  | half_open =>
      let '(c1, ev) := updateState closed c in
      ({| failures := 0; state := state c1;
          lastFailureTime := lastFailureTime c1 |}, ev)
  | _ => (c, [])
  end.

(** First half of [replacementMethod]: the check made when the call
    arrives, at time [now]. [None] lets the call through. *)
Definition gate (now : Z) (c : CircuitState)
  : option Error * CircuitState * list event :=
  match state c with
  | open =>
      if resetTimeout options <=? now - lastFailureTime c
      then let '(c1, ev) := updateState half_open c in (None, c1, ev)
      else (Some (mkError "Circuit breaker is open"), c, [])
  | _ => (None, c, [])
  end.

(** Second half: what happens when the invocation settles, at time
    [now']. *)
Definition settle (o : outcome V) (now' : Z) (c : CircuitState)
  : settled V * CircuitState * list event :=
  match o with
  | Returns v | Resolves v =>
      let '(c1, ev) := handleSuccess c in (Fulfilled v, c1, ev)
  | Throws e | Rejects e =>
      let '(c1, ev) := handleFailure now' c in (Rejected e, c1, ev)
  end.

(** One call that runs to completion before the next one starts. *)
Record call : Type := mkCall {
  calledAt : Z;         (* Date.now() at the open-state check *)
  does : outcome V;     (* what the target does if it is invoked *)
  settledAt : Z         (* Date.now() inside handleFailure *)
}.

Definition replacementMethod (k : call) (c : CircuitState)
  : settled V * CircuitState * list event :=
  match gate (calledAt k) c with
  | (Some err, c1, ev) => (Rejected err, c1, ev)
  | (None, c1, ev) =>
      let '(r, c2, ev') := settle (does k) (settledAt k) c1 in
      (r, c2, ev ++ Invoke :: ev')
  end.

Definition after (k : call) (c : CircuitState) : CircuitState :=
  snd (fst (replacementMethod k c)).

(** A sequence of calls, oldest first. *)
Definition run (ks : list call) (c : CircuitState) : CircuitState :=
  fold_left (fun c k => after k c) ks c.

Definition fails (k : call) : bool := negb (succeeds (does k)).

Definition failureTotal (ks : list call) : Z :=
  Z.of_nat (length (filter (fun k => fails k = true) ks)).

Definition invoked (k : call) (c : CircuitState) : bool :=
  bool_decide (Invoke ∈ snd (replacementMethod k c)).

End Breaker.

(** Sample inputs: a breaker with threshold 3 and a one-second reset
    timeout, a call whose promise rejects and one whose promise
    resolves, each settling a millisecond after it was made. *)
Definition demoOptions : Options :=
  {| failureThreshold := 3; resetTimeout := 1000 |}.

Definition boom (t : Z) : call (V:=string) :=
  {| calledAt := t; does := Rejects (mkError "boom"); settledAt := t + 1 |}.

Definition fine (t : Z) : call (V:=string) :=
  {| calledAt := t; does := Resolves "ok"; settledAt := t + 1 |}.



(** The two shapes the circuit state has between calls that run to
    completion: closed below the threshold, open at or above it. *)
Definition betweenCalls (options : Options) (c : CircuitState) : Prop :=
  (state c = closed /\ 0 <= failures c < failureThreshold options) \/
  (state c = open /\ failureThreshold options <= failures c).

End CircuitBreaker.

(** ** DebounceSync and DebounceAsync (part_002, lines 211-305) *)

Module Debounce.

(** A receiver [this]: the name of its class ([this.constructor.name])
    and its identity as an object. *)
Record Instance : Type := mkInstance {
  className : string;
  oid : nat
}.

(** The two decorators differ in who calls the target: the timer
    callback itself ([DebounceSync]) or a [.then] chained on a promise
    that the timer callback resolves ([DebounceAsync]). *)
Inductive Variant : Type := Sync | Async.

(** The decorator's [timeoutMap], the timers armed in the event loop
    with the closure [(this, args)] of their callback, the promises
    handed to callers that have settled, the next timer handle, and the
    invocations of the target so far. A call creates one timer and one
    promise: the promise is named by the handle of its timer. *)
Record State (V Args : Type) : Type := mkState {
  timeoutMap : gmap string nat;
  armed : gmap nat (Instance * Args);
  settledPromises : gmap nat (settled V);
  nextTimer : nat;
  executions : list (Instance * Args)
}.
Arguments mkState {V Args} timeoutMap armed settledPromises nextTimer executions.
Arguments timeoutMap {V Args} s.
Arguments armed {V Args} s.
Arguments settledPromises {V Args} s.
Arguments nextTimer {V Args} s.
Arguments executions {V Args} s.

Definition initial {V Args} : State V Args := mkState ∅ ∅ ∅ 0%nat [].

Section Debounce.
Context {V Args : Type}.
Variable variant : Variant.
Variable methodName : string.
Variable target : Instance -> Args -> outcome V.

(** [`${this.constructor.name}.${methodName}`] *)
Definition keyOf (this : Instance) : string :=
  className this +:+ "." +:+ methodName.

(** [if (existingTimeout) clearTimeout(existingTimeout)]: clearing a
    handle that has fired already changes nothing. *)
Definition clearExisting (existingTimeout : option nat)
    (timers : gmap nat (Instance * Args)) : gmap nat (Instance * Args) :=
  match existingTimeout with
  | Some h => delete h timers
  | None => timers
  end.

(** [replacementMethod]: returns the new promise (named by the handle
    of the new timer), pending. *)
Definition replacementMethod (this : Instance) (args : Args)
    (st : State V Args) : nat * State V Args :=
  let key := keyOf this in
  let existingTimeout := timeoutMap st !! key in
  let newTimeout := nextTimer st in
  (newTimeout,
   mkState (<[key := newTimeout]> (timeoutMap st))
     (<[newTimeout := (this, args)]> (clearExisting existingTimeout (armed st)))
     (settledPromises st)
     (S newTimeout)
     (executions st)).

(** How the promise of the call settles once the target has run.
    [DebounceSync] calls the target inside the timer callback and then
    [resolve(result)]: if the target throws, [resolve] is never
    reached. [DebounceAsync] calls it inside [.then], which turns a
    throw into a rejection. *)
Definition settlement (o : outcome V) : option (settled V) :=
  match o with
  | Returns v | Resolves v => Some (Fulfilled v)
  | Rejects e => Some (Rejected e)
  | Throws e => match variant with
                | Sync => None
                | Async => Some (Rejected e)
                end
  end.

(** The event loop runs the callback of timer [h], if it is armed. *)
Definition fire (h : nat) (st : State V Args) : State V Args :=
  match armed st !! h with
  | Some (this, args) =>
      mkState (timeoutMap st) (delete h (armed st))
        (match settlement (target this args) with
         | Some s => <[h := s]> (settledPromises st)
         | None => settledPromises st
         end)
        (nextTimer st)
        (executions st ++ [(this, args)])
  | None => st
  end.

Inductive event : Type :=
| Call (this : Instance) (args : Args)
| Fire (h : nat).

Definition step (st : State V Args) (ev : event) : State V Args :=
  match ev with
  | Call this args => snd (replacementMethod this args st)
  | Fire h => fire h st
  end.

Definition run (evs : list event) (st : State V Args) : State V Args :=
  fold_left step evs st.

(** Handles not yet given out name no timer and no promise, and are
    not in [timeoutMap]. *)
Definition wellFormed (st : State V Args) : Prop :=
  (forall h, (nextTimer st <= h)%nat ->
             armed st !! h = None /\ settledPromises st !! h = None) /\
  (forall key h, timeoutMap st !! key = Some h -> (h < nextTimer st)%nat).

(** A promise whose timer is gone before it fired: handle given out,
    timer not armed, promise not settled. *)
Definition abandoned (p : nat) (st : State V Args) : Prop :=
  armed st !! p = None /\ settledPromises st !! p = None /\
  (p < nextTimer st)%nat.

End Debounce.

(** Sample: [@DebounceSync(300) search(query)] on two instances of
    class [SearchService], and on an instance of a class [Indexer]. *)
Definition search (this : Instance) (query : string) : outcome string :=
  Returns ("results for " +:+ query).

Definition serviceA : Instance := mkInstance "SearchService" 1.
Definition serviceB : Instance := mkInstance "SearchService" 2.
Definition indexer : Instance := mkInstance "Indexer" 3.

(** Every armed timer is the one [timeoutMap] holds for the key of its
    receiver. *)
Definition oneTimerPerKey {V Args : Type} (methodName : string)
    (st : State V Args) : Prop :=
  forall h this args,
    armed st !! h = Some (this, args) ->
    timeoutMap st !! keyOf methodName this = Some h.

End Debounce.

(** ** RateLimited (decorators/method/validation.ts, lines 91-142) *)

Module RateLimited.

(** The numbers [Math.min(...requestTimestamps)] and what is computed
    from it can be: [Math.min()] of no argument is [Infinity]. *)
Inductive num : Type := Finite (z : Z) | Infinity.

Definition Math_min (ts : list Z) : num :=
  match ts with
  | [] => Infinity
  | t :: rest => Finite (foldl Z.min t rest)
  end.

(** [oldestRequest + window - now] *)
Definition resetTimeOf (oldestRequest : num) (window now : Z) : num :=
  match oldestRequest with
  | Finite o => Finite (o + window - now)
  | Infinity => Infinity
  end.

(** [Math.ceil(resetTime / 1000)] *)
Definition ceilSeconds (resetTime : num) : num :=
  match resetTime with
  | Finite r => Finite (- ((- r) / 1000))
  | Infinity => Infinity
  end.

(** The text a template literal gives for a number. *)
Definition toString (n : num) : string :=
  match n with
  | Finite z => pretty z
  | Infinity => "Infinity"
  end.

(** How the wrapper completes: it throws on its own, synchronously, or
    it ends in [return target.apply(this, args)] and the target does
    [o]. Only in the second case is the target invoked. *)
Inductive completion (V : Type) : Type :=
| Throw (e : Error)
| TailCall (o : outcome V).
Arguments Throw {V} e.
Arguments TailCall {V} o.

Definition targetInvoked {V} (r : completion V) : bool :=
  match r with Throw _ => false | TailCall _ => true end.

Section Limiter.
(** [options.limit], [options.window] and [String(context.name)]. *)
Variable limit window : Z.
Variable methodName : string.
Context {V : Type}.

(** [`${instanceId}:${methodName}`], [instanceId] being
    [this.constructor.name]. *)
Definition keyOf (instanceId : string) : string :=
  instanceId +:+ ":" +:+ methodName.

(** [requestTimestamps.filter(timestamp => timestamp > windowStart)] *)
Definition prune (windowStart : Z) (requestTimestamps : list Z) : list Z :=
  filter (fun timestamp => windowStart < timestamp) requestTimestamps.

Definition rateLimitMessage (resetTime : num) : string :=
  "Rate limit exceeded for " +:+ methodName +:+ ". " +:+
  "Try again in " +:+ toString (ceilSeconds resetTime) +:+ " seconds.".

(** [replacementMethod], called on an instance of class [instanceId] at
    time [now], with [does] what the target would do; [rateLimitState]
    is the decorator's map, returned updated. *)
Definition replacementMethod (instanceId : string) (now : Z)
    (does : outcome V) (rateLimitState : gmap string (list Z))
  : completion V * gmap string (list Z) :=
  let windowStart := now - window in
  let key := keyOf instanceId in
  let requestTimestamps := default [] (rateLimitState !! key) in
  let requestTimestamps := prune windowStart requestTimestamps in
  if limit <=? Z.of_nat (length requestTimestamps) then
    let oldestRequest := Math_min requestTimestamps in
    let resetTime := resetTimeOf oldestRequest window now in
    (Throw (mkError (rateLimitMessage resetTime)), rateLimitState)
  else
    (TailCall does, <[key := requestTimestamps ++ [now]]> rateLimitState).

(** The states the decorator's map can be in: empty when the decorator
    is applied, then changed by calls of the wrapper only. *)
Inductive reachable : gmap string (list Z) -> Prop :=
| reachable_init : reachable ∅
| reachable_call instanceId now does st :
    reachable st ->
    reachable (snd (replacementMethod instanceId now does st)).

End Limiter.

(** Sample inputs, after the repository's test: class [Test] with
    [@RateLimited({ limit: 2, window: 100 }) method() { return 'result' }],
    called at 0 and 10 ms. *)
Definition testCall (now : Z) (st : gmap string (list Z))
  : completion string * gmap string (list Z) :=
  replacementMethod 2 100 "method" "Test" now (Returns "result") st.

Definition afterTwoCalls : gmap string (list Z) :=
  snd (testCall 10 (snd (testCall 0 ∅))).

End RateLimited.

(** ** Cached (decorators/method/validation.ts, lines 143-225) *)

Module Cached.

(** [interface CacheEntry { value: unknown; expiry: number | undefined }] *)
Record CacheEntry (V : Type) : Type := mkEntry {
  value : V;
  expiry : option Z
}.
Arguments mkEntry {V} value expiry.
Arguments value {V} c.
Arguments expiry {V} c.

(** Truthiness of an optional number, as [expiryTime ? _ : _] and
    [!cached.expiry] test it: [undefined] and [0] are falsy. *)
Definition truthy (n : option Z) : bool :=
  match n with
  | Some z => negb (z =? 0)
  | None => false
  end.

(** The module-level [cache] and the [methodCacheKeys] of the decorated
    method under study. *)
Record State (V : Type) : Type := mkState {
  cache : gmap string (CacheEntry V);
  methodCacheKeys : gset string
}.
Arguments mkState {V} cache methodCacheKeys.
Arguments cache {V} s.
Arguments methodCacheKeys {V} s.

(** How the wrapper completes: with the stored value, the target not
    being invoked, or with whatever the invoked target does. *)
Inductive completion (V : Type) : Type :=
| FromCache (v : V)
| Computed (o : outcome V).
Arguments FromCache {V} v.
Arguments Computed {V} o.

Definition targetInvoked {V} (r : completion V) : bool :=
  match r with FromCache _ => false | Computed _ => true end.

Section Cached.
Context {V Args : Type}.
(** [options.expiryTime], [options.key], [String(context.name)], and
    [JSON.stringify] on argument lists. *)
Variable expiryTime : option Z.
Variable key : option (Args -> string).
Variable methodName : string.
Variable JSON_stringify : Args -> string.

Definition cacheKeyOf (className : string) (args : Args) : string :=
  match key with
  | Some f => f args
  | None => className +:+ ":" +:+ methodName +:+ ":" +:+ JSON_stringify args
  end.

(** [!cached.expiry || cached.expiry > Date.now()] *)
Definition unexpired (cached : CacheEntry V) (now : Z) : bool :=
  negb (truthy (expiry cached))
  || match expiry cached with
     | Some e => now <? e
     | None => false
     end.

(** [{ value, expiry: expiryTime ? Date.now() + expiryTime : undefined }] *)
Definition newEntry (v : V) (now : Z) : CacheEntry V :=
  {| value := v;
     expiry := match expiryTime with
               | Some ttl => if truthy expiryTime then Some (now + ttl)
                             else None
               | None => None
               end |}.

(** The part of [replacementMethod] after the lookup: the target is
    invoked and a value it produces is stored (for a promise, by the
    [.then] callback); [now'] is the [Date.now()] read when storing. A
    call is followed up to this point before the next one is looked at. *)
Definition compute (cacheKey : string) (does : outcome V) (now' : Z)
    (c : gmap string (CacheEntry V)) : gmap string (CacheEntry V) :=
  match does with
  | Returns v | Resolves v => <[cacheKey := newEntry v now']> c
  | Throws _ | Rejects _ => c
  end.

Definition replacementMethod (className : string) (args : Args) (now : Z)
    (does : outcome V) (now' : Z) (st : State V) : completion V * State V :=
  let cacheKey := cacheKeyOf className args in
  let keys := {[cacheKey]} ∪ methodCacheKeys st in
  match cache st !! cacheKey with
  | Some cached =>
      if unexpired cached now
      then (FromCache (value cached), mkState (cache st) keys)
      else (Computed does,
            mkState (compute cacheKey does now' (delete cacheKey (cache st)))
              keys)
  | None =>
      (Computed does, mkState (compute cacheKey does now' (cache st)) keys)
  end.

(** The generated [invalidate<Name>] method:
    [methodCacheKeys.forEach(k => cache.delete(k)); methodCacheKeys.clear()]. *)
Definition invalidate (st : State V) : State V :=
  mkState (foldr delete (cache st) (elements (methodCacheKeys st))) ∅.

(** A key is covered when the next invalidation is bound to leave it
    out of the cache: it is registered with the method, or not cached. *)
Definition covered (k : string) (st : State V) : Prop :=
  k ∈ methodCacheKeys st \/ cache st !! k = None.

(** One complete call, as data. *)
Record call : Type := mkCall {
  className : string;
  args : Args;
  calledAt : Z;
  does : outcome V;
  storedAt : Z
}.

Definition after (k : call) (st : State V) : State V :=
  snd (replacementMethod (className k) (args k) (calledAt k) (does k)
         (storedAt k) st).

(** What can happen to the method's cache over time: a call of the
    wrapper on some instance, or a call of the invalidation method. *)
Inductive action : Type :=
| Do (k : call)
| Invalidate.

Definition act (st : State V) (a : action) : State V :=
  match a with
  | Do k => after k st
  | Invalidate => invalidate st
  end.

Definition play (history : list action) (st : State V) : State V :=
  fold_left act history st.

(** The action is a call that produces [cacheKey]. *)
Definition produces (cacheKey : string) (a : action) : Prop :=
  match a with
  | Do k => cacheKeyOf (className k) (args k) = cacheKey
  | Invalidate => False
  end.

(** Calls that overlap. When the target returns a promise, the wrapper
    returns before anything is stored: [cache.set] runs in the [.then]
    callback, when the promise is fulfilled, and other calls and
    invalidations can come in between. A store still to come: its key,
    its value, and the [Date.now()] its callback will read. *)
Record Store : Type := mkStore {
  storeKey : string;
  storeValue : V;
  storeTime : Z
}.

(** What [replacementMethod] does before it returns: the key is
    registered, the cache looked up, an expired entry deleted and, on a
    miss, the target invoked. A plain value is stored at once; for a
    promise the store is returned as the third component. *)
Definition start (k : call) (st : State V)
  : completion V * State V * option Store :=
  let cacheKey := cacheKeyOf (className k) (args k) in
  let keys := {[cacheKey]} ∪ methodCacheKeys st in
  let miss (c : gmap string (CacheEntry V)) :=
    match does k with
    | Returns v =>
        (Computed (does k),
         mkState (<[cacheKey := newEntry v (storedAt k)]> c) keys, None)
    | Resolves v =>
        (Computed (does k), mkState c keys,
         Some (mkStore cacheKey v (storedAt k)))
    | Throws _ | Rejects _ => (Computed (does k), mkState c keys, None)
    end in
  match cache st !! cacheKey with
  | Some cached =>
      if unexpired cached (calledAt k)
      then (FromCache (value cached), mkState (cache st) keys, None)
      else miss (delete cacheKey (cache st))
  | None => miss (cache st)
  end.

(** The [.then] callback: [cache.set(cacheKey, { value, expiry })]. *)
Definition finish (p : Store) (st : State V) : State V :=
  mkState (<[storeKey p := newEntry (storeValue p) (storeTime p)]> (cache st))
    (methodCacheKeys st).

(** The state of the method and the stores still to come, oldest call
    first. *)
Record Running : Type := mkRunning {
  current : State V;
  pending : list Store
}.

(** A call begins, the promise of the [n]-th pending call is fulfilled,
    or the invalidation method is called. *)
Inductive event : Type :=
| Begin (k : call)
| Settle (n : nat)
| Invalidation.

Definition step (r : Running) (ev : event) : Running :=
  match ev with
  | Begin k =>
      let '(_, st, later) := start k (current r) in
      mkRunning st (pending r ++ option_list later)
  | Settle n =>
      match pending r !! n with
      | Some p => mkRunning (finish p (current r)) (delete n (pending r))
      | None => r
      end
  | Invalidation => mkRunning (invalidate (current r)) (pending r)
  end.

Definition interleave (history : list event) (r : Running) : Running :=
  fold_left step history r.

(** The event is the beginning of a call that produces [cacheKey]. *)
Definition begins (cacheKey : string) (ev : event) : Prop :=
  match ev with
  | Begin k => cacheKeyOf (className k) (args k) = cacheKey
  | Settle _ | Invalidation => False
  end.

(** No pending call is going to store under [cacheKey]. *)
Definition noStorePending (cacheKey : string) (r : Running) : bool :=
  forallb (fun p => negb (String.eqb (storeKey p) cacheKey)) (pending r).

(** No invalidation of the history is made while a store under
    [cacheKey] is pending. *)
Fixpoint calm (cacheKey : string) (history : list event) (r : Running)
  : bool :=
  match history with
  | [] => true
  | ev :: rest =>
      match ev with
      | Invalidation => noStorePending cacheKey r
      | Begin _ | Settle _ => true
      end && calm cacheKey rest (step r ev)
  end.

(** A history of calls each followed to its settlement, as events. *)
Definition sequential (history : list action) : list event :=
  flat_map (fun a => match a with
                     | Do k => [Begin k; Settle 0%nat]
                     | Invalidate => [Invalidation]
                     end) history.

(** In the interleaved run, a key is covered when the next invalidation
    made with no store of the key pending is bound to leave it out of
    the cache for good. *)
Definition coveredRunning (k : string) (r : Running) : Prop :=
  k ∈ methodCacheKeys (current r) \/
  (cache (current r) !! k = None /\ noStorePending k r = true).

End Cached.

(** As the specification words the stored expiry: [now + expiryTime] if
    [expiryTime] is set, else none. Kept apart from [newEntry], to be
    compared with it. *)
Definition spec_expiry (expiryTime : option Z) (now : Z) : option Z :=
  match expiryTime with
  | Some ttl => Some (now + ttl)
  | None => None
  end.

(** Sample inputs: [@Cached({ expiryTime })] on [fetchData(id: string)]
    of class [DataService], with [JSON.stringify([id])] written out. *)
Definition dquote : string :=
  String (Ascii.ascii_of_nat 34) EmptyString.

Definition stringifyId (id : string) : string :=
  "[" +:+ dquote +:+ id +:+ dquote +:+ "]".

Definition fetchData (expiryTime : option Z) (id : string) (now : Z)
    (v : string) (st : State string) : completion string * State string :=
  replacementMethod expiryTime None "fetchData" stringifyId
    "DataService" id now (Resolves v) now st.

Definition emptyState : State string := mkState ∅ ∅.

End Cached.

(** ** Scheduling: Schedule, Interval, Timeout and cleanup (part_001) *)

Module Scheduling.

(** A [Map<string, handle>] of the instance: entries in insertion
    order; [set] on a present key replaces its value in place. *)
Definition HandleMap : Type := list (string * nat).

Fixpoint map_set (name : string) (h : nat) (m : HandleMap) : HandleMap :=
  match m with
  | [] => [(name, h)]
  | (name', h') :: rest =>
      if String.eqb name' name then (name', h) :: rest
      else (name', h') :: map_set name h rest
  end.

(** [m.values()] *)
Definition map_values (m : HandleMap) : list nat := map snd m.

(** The three symbol-keyed properties of an instance; [None] is
    [undefined], the property never having been created. *)
Record Instance : Type := mkInstance {
  CRON_JOBS : option HandleMap;
  INTERVALS : option HandleMap;
  TIMEOUTS : option HandleMap
}.

(** An instance no scheduling decorator has touched. *)
Definition neverScheduled : Instance :=
  {| CRON_JOBS := None; INTERVALS := None; TIMEOUTS := None |}.

(** Calls into the timer and cron runtime. *)
Inductive effect : Type :=
| JobStop (job : nat)          (* job.stop() *)
| ClearInterval (timer : nat)  (* clearInterval(timer) *)
| ClearTimeout (timer : nat).  (* clearTimeout(timer) *)

(** The initializers installed by [@Schedule], [@Interval] and
    [@Timeout]: create the map if it is missing and store the handle
    that [cron.schedule], [setInterval] or [setTimeout] returned under
    the method's name. *)
Definition registerCron (methodName : string) (job : nat) (i : Instance)
  : Instance :=
  {| CRON_JOBS := Some (map_set methodName job (default [] (CRON_JOBS i)));
     INTERVALS := INTERVALS i; TIMEOUTS := TIMEOUTS i |}.

Definition registerInterval (methodName : string) (timer : nat) (i : Instance)
  : Instance :=
  {| CRON_JOBS := CRON_JOBS i;
     INTERVALS := Some (map_set methodName timer (default [] (INTERVALS i)));
     TIMEOUTS := TIMEOUTS i |}.

Definition registerTimeout (methodName : string) (timer : nat) (i : Instance)
  : Instance :=
  {| CRON_JOBS := CRON_JOBS i; INTERVALS := INTERVALS i;
     TIMEOUTS := Some (map_set methodName timer (default [] (TIMEOUTS i))) |}.

(** One block of [cleanup]:
    [if (instance[K]) { for (const h of instance[K].values()) stop(h);
                        instance[K].clear(); }]
    A map object is truthy also when it is empty. *)
Definition clearAll (stop : nat -> effect) (m : option HandleMap)
  : option HandleMap * list effect :=
  match m with
  | Some entries => (Some [], map stop (map_values entries))
  | None => (None, [])
  end.

(** [cleanup(instance)], with the runtime calls it makes, in order. *)
Definition cleanup (instance : Instance) : Instance * list effect :=
  let '(cron, stopped) := clearAll JobStop (CRON_JOBS instance) in
  let '(intervals, clearedIntervals) :=
    clearAll ClearInterval (INTERVALS instance) in
  let '(timeouts, clearedTimeouts) :=
    clearAll ClearTimeout (TIMEOUTS instance) in
  ({| CRON_JOBS := cron; INTERVALS := intervals; TIMEOUTS := timeouts |},
   stopped ++ clearedIntervals ++ clearedTimeouts).



(** The handles an instance holds in one of its maps. *)
Definition handles (m : option HandleMap) : list nat :=
  map_values (default [] m).

(** The three scheduling decorators, and one run of an initializer: the
    decorator, the name of the decorated method, the handle obtained. *)
Inductive Kind : Type := CronJob | IntervalTimer | TimeoutTimer.

#[global] Instance Kind_eq_dec : EqDecision Kind.
Proof. solve_decision. Defined.

Record registration : Type := mkRegistration {
  kind : Kind;
  method : string;
  handle : nat
}.

Definition register (r : registration) (i : Instance) : Instance :=
  match kind r with
  | CronJob => registerCron (method r) (handle r) i
  | IntervalTimer => registerInterval (method r) (handle r) i
  | TimeoutTimer => registerTimeout (method r) (handle r) i
  end.

(** The initializers of an instance under construction, in order. *)
Definition registerAll (log : list registration) (i : Instance) : Instance :=
  fold_left (fun i r => register r i) log i.

(** The runtime call that stops what a registration started. *)
Definition stopOf (r : registration) : effect :=
  match kind r with
  | CronJob => JobStop (handle r)
  | IntervalTimer => ClearInterval (handle r)
  | TimeoutTimer => ClearTimeout (handle r)
  end.

Definition ofKind (k : Kind) (log : list registration) : list registration :=
  filter (fun r => kind r = k) log.

(** The map of an instance that belongs to a decorator. *)
Definition mapOf (k : Kind) (i : Instance) : option HandleMap :=
  match k with
  | CronJob => CRON_JOBS i
  | IntervalTimer => INTERVALS i
  | TimeoutTimer => TIMEOUTS i
  end.

(** Sample: a cron job on [report], intervals on [tick] and [poll], a
    timeout on [warmup]. *)
Definition scheduler : Instance :=
  registerTimeout "warmup" 4
    (registerInterval "poll" 3
       (registerInterval "tick" 2
          (registerCron "report" 1 neverScheduled))).

End Scheduling.

(** ** Memoize (decorators/method/validation.ts, lines 227-264) *)

Module Memoize.

(** How the wrapper completes: with the memoized value, or with
    whatever the invoked target does. *)
Inductive completion (V : Type) : Type :=
| FromMemo (v : V)
| Computed (o : outcome V).
Arguments FromMemo {V} v.
Arguments Computed {V} o.

Section Memoize.
Context {V Args : Type}.
Variable methodName : string.
Variable JSON_stringify : Args -> string.

(** [`${methodName}:${JSON.stringify(args)}`]: the receiver is no part
    of the key. *)
Definition keyOf (args : Args) : string :=
  methodName +:+ ":" +:+ JSON_stringify args.

(** [replacementMethod] on the decorator's [memoized] map. A value the
    target produces is stored (for a promise, by the [.then] callback,
    the call being followed up to there); a failure stores nothing. *)
Definition replacementMethod (args : Args) (does : outcome V)
    (memoized : gmap string V) : completion V * gmap string V :=
  let key := keyOf args in
  match memoized !! key with
  | Some v => (FromMemo v, memoized)
  | None =>
      (Computed does,
       match does with
       | Returns v | Resolves v => <[key := v]> memoized
       | Throws _ | Rejects _ => memoized
       end)
  end.

Definition run (calls : list (Args * outcome V)) (memoized : gmap string V)
  : gmap string V :=
  fold_left (fun m c => snd (replacementMethod (fst c) (snd c) m))
    calls memoized.

(** Calls that overlap. [start] is what [replacementMethod] does before
    it returns: the lookup and, on a miss, the invocation. A plain
    value is stored at once; for a promise the store is left to the
    [.then] callback, which runs when the promise is fulfilled, maybe
    after other calls have begun or settled: it is returned as the
    third component, the key and the value to be stored. *)
Definition start (args : Args) (does : outcome V) (memoized : gmap string V)
  : completion V * gmap string V * option (string * V) :=
  let key := keyOf args in
  match memoized !! key with
  | Some v => (FromMemo v, memoized, None)
  | None =>
      match does with
      | Returns v => (Computed does, <[key := v]> memoized, None)
      | Resolves v => (Computed does, memoized, Some (key, v))
      | Throws _ | Rejects _ => (Computed does, memoized, None)
      end
  end.

(** The map and the stores still to come, oldest call first. *)
Record Running : Type := mkRunning {
  memo : gmap string V;
  inFlight : list (string * V)
}.

(** A call begins, or the promise of the [n]-th call in flight is
    fulfilled and its [.then] callback runs [memoized.set(key, value)],
    with no second look at the map. *)
Inductive event : Type :=
| Begin (args : Args) (does : outcome V)
| Settle (n : nat).

Definition step (r : Running) (ev : event) : Running :=
  match ev with
  | Begin args does =>
      let '(_, memoized, later) := start args does (memo r) in
      mkRunning memoized (inFlight r ++ option_list later)
  | Settle n =>
      match inFlight r !! n with
      | Some (key, v) => mkRunning (<[key := v]> (memo r)) (delete n (inFlight r))
      | None => r
      end
  end.

Definition interleave (evs : list event) (r : Running) : Running :=
  fold_left step evs r.

(** No call in flight is going to store under [key]. *)
Definition noneInFlight (key : string) (r : Running) : bool :=
  forallb (fun later => negb (String.eqb (fst later) key)) (inFlight r).

End Memoize.

(** Sample: [@Memoize() square(n)] with [JSON.stringify([n])]. *)
Definition stringifyN (n : Z) : string := "[" +:+ pretty n +:+ "]".

End Memoize.

(** ** Fallback (part_002, lines 179-210) *)

Module Fallback.

(** [replacementMethod]: what the wrapper does, as an outcome of its
    own, and whether [fallbackFn] was called; [fallback] is what
    [fallbackFn.apply(this, args)] does if it is called. A promise goes
    through [result.catch(...)], which gives a promise in every case: a
    fallback that returns a plain value or throws inside the handler
    resolves or rejects that promise. *)
Definition replacementMethod {V} (does fallback : outcome V)
  : outcome V * bool :=
  match does with
  | Returns v => (Returns v, false)
  | Resolves v => (Resolves v, false)
  | Throws _ => (fallback, true)
  | Rejects _ =>
      (match fallback with
       | Returns v | Resolves v => Resolves v
       | Throws e | Rejects e => Rejects e
       end, true)
  end.

(** A settled promise seen as the outcome of the call that returned it. *)
Definition promised {V} (s : settled V) : outcome V :=
  match s with
  | Fulfilled v => Resolves v
  | Rejected e => Rejects e
  end.

Definition isPromise {V} (o : outcome V) : bool :=
  match o with
  | Resolves _ | Rejects _ => true
  | Returns _ | Throws _ => false
  end.

(** [@Fallback(f) @Retry(options) m]: the fallback wraps the retrying
    wrapper, whose result is always a promise. Result of the whole, the
    trace of the retrying wrapper, and whether the fallback ran. *)
Definition fallbackOverRetry {V} (options : Retry.RetryOptions)
    (target : Z -> outcome V) (fallback : outcome V)
  : outcome V * list Retry.event * bool :=
  let '(r, ev) := Retry.replacementMethod options target in
  let '(o, used) := replacementMethod (promised r) fallback in
  (o, ev, used).

(** [@Retry(options) @Fallback(f) m]: the retrying wrapper invokes the
    fallback-wrapped method; at its n-th invocation the method does
    [target n] and the fallback, if called, [fallback n]. *)
Definition retryOverFallback {V} (options : Retry.RetryOptions)
    (target fallback : Z -> outcome V) : settled V * list Retry.event :=
  Retry.replacementMethod options
    (fun n => fst (replacementMethod (target n) (fallback n))).

End Fallback.

(** ** ThrottleSync and ThrottleAsync (part_002, lines 307-379) *)

Module Throttle.

(** What a call of the [ThrottleAsync] wrapper returns: the result of
    the target it just invoked, the stored result of an earlier
    invocation (the same object again), or [Promise.resolve(undefined)]. *)
Inductive asyncResult (V : Type) : Type :=
| Executed (o : outcome V)
| Shared (o : outcome V)
| ResolvedUndefined.
Arguments Executed {V} o.
Arguments Shared {V} o.
Arguments ResolvedUndefined {V}.

(** The two maps of [ThrottleAsync]. *)
Record AsyncState (V : Type) : Type := mkAsync {
  lastCallMap : gmap string Z;
  lastResultMap : gmap string (outcome V)
}.
Arguments mkAsync {V} lastCallMap lastResultMap.
Arguments lastCallMap {V} a.
Arguments lastResultMap {V} a.

Section Throttle.
Variable interval : Z.
Variable methodName : string.
Context {V : Type}.
(** Truthiness of a plain value, for [lastResult || ...]. *)
Variable isTruthy : V -> bool.

(** [`${this.constructor.name}.${methodName}`] *)
Definition keyOf (className : string) : string :=
  className +:+ "." +:+ methodName.

(** [ThrottleSync]'s [replacementMethod]: [None] is the [undefined]
    returned without invoking the target. The time is recorded before
    the target is invoked. *)
Definition replacementMethodSync (className : string) (now : Z)
    (does : outcome V) (lastCalls : gmap string Z)
  : option (outcome V) * gmap string Z :=
  let key := keyOf className in
  let lastCall := default 0 (lastCalls !! key) in
  if interval <=? now - lastCall
  then (Some does, <[key := now]> lastCalls)
  else (None, lastCalls).

(** A stored result is truthy if it is a promise, or a truthy value. *)
Definition truthyResult (o : outcome V) : bool :=
  match o with
  | Returns v => isTruthy v
  | Resolves _ | Rejects _ => true
  | Throws _ => false
  end.

(** [ThrottleAsync]'s [replacementMethod]: the target is invoked first
    and the maps are written after it has returned, so a target that
    throws leaves them as they were. *)
Definition replacementMethodAsync (className : string) (now : Z)
    (does : outcome V) (st : AsyncState V) : asyncResult V * AsyncState V :=
  let key := keyOf className in
  let lastCall := default 0 (lastCallMap st !! key) in
  if interval <=? now - lastCall
  then match does with
       | Throws e => (Executed (Throws e), st)
       | _ => (Executed does,
               mkAsync (<[key := now]> (lastCallMap st))
                 (<[key := does]> (lastResultMap st)))
       end
  else match lastResultMap st !! key with
       | Some lastResult =>
           if truthyResult lastResult then (Shared lastResult, st)
           else (ResolvedUndefined, st)
       | None => (ResolvedUndefined, st)
       end.

(** One call, as data: class of the receiver, time, what the target
    would do. *)
Record call : Type := mkCall {
  className : string;
  calledAt : Z;
  does : outcome V
}.

(** The times at which the calls of a sequence that fall under [key]
    invoke the target, under [ThrottleSync]. *)
Fixpoint executedSync (key : string) (calls : list call)
    (lastCalls : gmap string Z) : list Z :=
  match calls with
  | [] => []
  | k :: rest =>
      let '(r, lastCalls') :=
        replacementMethodSync (className k) (calledAt k) (does k) lastCalls in
      let later := executedSync key rest lastCalls' in
      match r with
      | Some _ => if decide (keyOf (className k) = key)
                  then calledAt k :: later else later
      | None => later
      end
  end.

(** Each time of the list is at least [interval] after the one before
    it, starting from [previous]. *)
Fixpoint spaced (previous : Z) (times : list Z) : Prop :=
  match times with
  | [] => True
  | t :: rest => interval <= t - previous /\ spaced t rest
  end.

End Throttle.

End Throttle.

(** ** GuardSync (decorators/method/validation.ts, lines 46-67) *)

Module Guard.

(** [new Error(`Guard failed for ${String(context.name)}`)] *)
Definition guardError (name : string) : Error :=
  mkError ("Guard failed for " +:+ name).

(** [GuardSync(GuardFn)(target, context)] applied to arguments. [R] is
    what a call of a method amounts to in the setting at hand and
    [raise] a synchronous throw there; [guard] is what [GuardFn(...args)]
    does: it returns a truthy or falsy value, or throws. The target is
    reached only when the guard returned a truthy value. *)
Definition GuardSync {R : Type} (raise : Error -> R) (name : string)
    (guard : Error + bool) (target : R) : R :=
  match guard with
  | inr true => target
  | inr false => raise (guardError name)
  | inl e => raise e
  end.

Section WithRateLimited.
Variable limit window : Z.
Variable methodName : string.
Context {V : Type}.

(** [@RateLimited(o) @GuardSync(g) m]: the limiter is outermost and the
    guarded method is its target. *)
Definition limitedGuarded (instanceId : string) (now : Z)
    (guard : Error + bool) (does : outcome V) (st : gmap string (list Z))
  : RateLimited.completion V * gmap string (list Z) :=
  RateLimited.replacementMethod limit window methodName instanceId now
    (GuardSync Throws methodName guard does) st.

(** [@GuardSync(g) @RateLimited(o) m]: the guard is outermost and the
    limiter is its target. *)
Definition guardedLimited (instanceId : string) (now : Z)
    (guard : Error + bool) (does : outcome V) (st : gmap string (list Z))
  : RateLimited.completion V * gmap string (list Z) :=
  GuardSync (fun e st => (RateLimited.Throw e, st)) methodName guard
    (RateLimited.replacementMethod limit window methodName instanceId now does)
    st.

(** Calls at the times [times], all refused by the guard, one after
    the other. *)
Definition refusedCalls
    (wrapper : string -> Z -> Error + bool -> outcome V ->
               gmap string (list Z) ->
               RateLimited.completion V * gmap string (list Z))
    (instanceId : string) (does : outcome V) (times : list Z)
    (st : gmap string (list Z)) : gmap string (list Z) :=
  fold_left (fun st t => snd (wrapper instanceId t (inr false) does st))
    times st.

End WithRateLimited.

End Guard.

(** ** Validate, the field decorator (part_002, lines 502-543) *)

Module FieldValidate.

(** What [schema.parse(value)] does: it returns the parsed value, throws
    a [ZodError] with a message, or throws something else. *)
Inductive parseResult (V : Type) : Type :=
| Parsed (v : V)
| ZodError (msg : string)
| OtherError (e : Error).
Arguments Parsed {V} v.
Arguments ZodError {V} msg.
Arguments OtherError {V} e.

Section Validate.
Variable fieldName : string.
Context {V : Type}.
Variable parse : V -> parseResult V.

(** The initializer: [this[valueKey] = this[fieldName]], unparsed. *)
Definition initialize (initial : V) : V := initial.

(** The getter. *)
Definition get (stored : V) : V := stored.

(** The setter: the error thrown, if any, and the stored value. *)
Definition set (value : V) (stored : V) : option Error * V :=
  match parse value with
  | Parsed validatedValue => (None, validatedValue)
  | ZodError msg =>
      (Some (mkError ("Validation failed for " +:+ fieldName +:+ ": "
                        +:+ msg)), stored)
  | OtherError e => (Some e, stored)
  end.

(** Assignments one after the other, exceptions being caught by the
    caller. *)
Definition assignAll (values : list V) (stored : V) : V :=
  fold_left (fun stored value => snd (set value stored)) values stored.

(** The parsed form of the last value of the list that parses. *)
Definition lastParsed (values : list V) : option V :=
  fold_left (fun acc value =>
               match parse value with
               | Parsed v => Some v
               | _ => acc
               end) values None.

End Validate.

(** Sample schema: integers from 0 to 150 ([z.number().min(0).max(150)]). *)
Definition ageSchema (n : Z) : parseResult Z :=
  if (0 <=? n) && (n <=? 150) then Parsed n
  else ZodError "Number out of range".

End FieldValidate.

(** * Properties *)

(** ** Retry *)

Module RetrySpec.
Import Retry.

Section Facts.
Variable options : RetryOptions.
Context {V : Type}.
Variable target : Z -> outcome V.

(** One round of [execute], as the source reads. *)
Lemma execute_round (attempts : Z) :
  execute options target attempts =
  match awaited (target (attempts + 1)) with
  | inl v => (Fulfilled v, [Invoke])
  | inr error =>
      if Z_le_dec (maxRetries options + 1) (attempts + 1)
      then (Rejected error, [Invoke])
      else let '(r, ev) := execute options target (attempts + 1) in
           (r, Invoke :: notify options error (attempts + 1)
                 ++ Sleep (delay options (attempts + 1)) :: ev)
  end.
Proof.
  rewrite execute_unfold_eq at 1. unfold execute_unfold.
  destruct (awaited (target (attempts + 1))) as [v | error]; simpl;
    [reflexivity |].
  destruct (Z_le_dec (maxRetries options + 1) (attempts + 1)); reflexivity.
Qed.

Lemma invocations_round (error : Error) (n d : Z) (ev : list event) :
  invocations (Invoke :: [OnRetry error n] ++ Sleep d :: ev)
  = S (invocations ev).
Proof. reflexivity. Qed.

Lemma retryAttempts_round (error : Error) (n d : Z) (ev : list event) :
  retryAttempts (Invoke :: [OnRetry error n] ++ Sleep d :: ev)
  = n :: retryAttempts ev.
Proof. reflexivity. Qed.

Lemma retryErrors_round (error : Error) (n d : Z) (ev : list event) :
  retryErrors (Invoke :: [OnRetry error n] ++ Sleep d :: ev)
  = error :: retryErrors ev.
Proof. reflexivity. Qed.

Section Exhaustion.
Variable err : Z -> Error.
Hypothesis always_fails : forall n, awaited (target n) = inr (err n).
Hypothesis callback : hasOnRetry options = true.

(** An always-failing target, followed from any value of [attempts]
    that still leaves [n] retries. *)
Lemma exhaust_from (n : nat) :
  forall attempts : Z,
    Z.of_nat n = maxRetries options - attempts ->
    exists ev,
      execute options target attempts
        = (Rejected (err (maxRetries options + 1)), ev) /\
      Z.of_nat (invocations ev) = maxRetries options + 1 - attempts /\
      retryAttempts ev = seqZ (attempts + 1) (maxRetries options - attempts) /\
      retryErrors ev
        = err <$> seqZ (attempts + 1) (maxRetries options - attempts).
Proof.
  induction n as [| n IH]; intros attempts Hn;
    rewrite execute_round, always_fails;
    destruct (Z_le_dec (maxRetries options + 1) (attempts + 1)) as [Hle | Hgt];
    try lia.
  - exists [Invoke].
    replace (maxRetries options - attempts) with 0 by lia.
    replace (attempts + 1) with (maxRetries options + 1) by lia.
    repeat split; try reflexivity. unfold invocations. simpl. lia.
  - destruct (IH (attempts + 1)) as (ev & Hex & Hinv & Hatt & Herr); [lia |].
    rewrite Hex. unfold notify. rewrite callback.
    eexists. split; [reflexivity |].
    rewrite invocations_round, retryAttempts_round, retryErrors_round.
    split; [lia |].
    rewrite (seqZ_cons (attempts + 1) (maxRetries options - attempts))
      by lia.
    replace (Z.pred (maxRetries options - attempts))
      with (maxRetries options - (attempts + 1)) by lia.
    replace (Z.succ (attempts + 1)) with (attempts + 1 + 1) by lia.
    rewrite Hatt, Herr. split; reflexivity.
Qed.

End Exhaustion.
End Facts.

(** C2. With [maxRetries = N] (N a natural number) and an [onRetry]
    callback, a target that fails at every attempt is invoked exactly
    N + 1 times; [onRetry] is called exactly N times, with the attempt
    numbers 1, 2, ..., N in this order, each time with the error of that
    attempt; and the wrapper rejects with the error of the last
    (N + 1-th) invocation itself. *)
Theorem C2_always_failing_target_exhausts_retries
  (options : RetryOptions) (V : Type) (target : Z -> outcome V)
  (err : Z -> Error) :
  0 <= maxRetries options ->
  hasOnRetry options = true ->
  (forall n, awaited (target n) = inr (err n)) ->
  exists ev,
    replacementMethod options target
      = (Rejected (err (maxRetries options + 1)), ev) /\
    Z.of_nat (invocations ev) = maxRetries options + 1 /\
    Z.of_nat (length (retryAttempts ev)) = maxRetries options /\
    retryAttempts ev = seqZ 1 (maxRetries options) /\
    retryErrors ev = err <$> seqZ 1 (maxRetries options).
Proof.
  intros HN Hcb Hfail.
  destruct (exhaust_from options target err Hfail Hcb
              (Z.to_nat (maxRetries options)) 0)
    as (ev & Hex & Hinv & Hatt & Herr); [lia |].
  exists ev. unfold replacementMethod. rewrite Hex.
  replace (maxRetries options - 0) with (maxRetries options) in * by lia.
  repeat split; try assumption; try lia.
  rewrite Hatt, length_seqZ. lia.
Qed.

(** The full trace of the sample: four invocations, three callbacks,
    and waits of 10, 20 and 40 ms. *)
Example retry_sample_trace :
  replacementMethod demoOptions alwaysFailing =
  (Rejected (mkError "fail 4"),
   [Invoke; OnRetry (mkError "fail 1") 1; Sleep 10;
    Invoke; OnRetry (mkError "fail 2") 2; Sleep 20;
    Invoke; OnRetry (mkError "fail 3") 3; Sleep 40;
    Invoke]).
Proof. vm_compute. reflexivity. Qed.

Lemma C2_witness :
  exists ev,
    replacementMethod demoOptions alwaysFailing
      = (Rejected (mkError "fail 4"), ev) /\
    invocations ev = 4%nat /\
    retryAttempts ev = [1; 2; 3].
Proof.
  destruct (C2_always_failing_target_exhausts_retries
              demoOptions string alwaysFailing failN)
    as (ev & Hres & Hinv & _ & Hatt & _).
  - vm_compute. discriminate.
  - reflexivity.
  - intros n. reflexivity.
  - exists ev. split; [exact Hres |]. split; [| exact Hatt].
    apply Nat2Z.inj. exact Hinv.
Defined.

End RetrySpec.

(** ** Timeout *)

Module TimeoutSpec.
Import Timeout.

Section Facts.
Variable ms : Z.
Variable methodName : string.
Context {V : Type}.

(** Once the race is decided nothing changes its result. *)
Lemma decided_forever (evs : list (event V)) (st : State V) (s : settled V) :
  result st = Some s ->
  result (deliverAll ms methodName evs st) = Some s.
Proof.
  revert st. induction evs as [| ev evs IH]; intros st Hs; [exact Hs |].
  simpl. apply IH. destruct ev as [s' |]; simpl.
  - unfold race. now rewrite Hs.
  - destruct (timerArmed st); [| exact Hs]. unfold race. simpl. now rewrite Hs.
Qed.

(** Only the firing of the timer disarms it. *)
Lemma armed_until_fired (evs : list (event V)) (st : State V) :
  timerArmed st = true ->
  forallb (fun ev => negb (isTimerFires ev)) evs = true ->
  timerArmed (deliverAll ms methodName evs st) = true.
Proof.
  revert st. induction evs as [| ev evs IH]; intros st Harm Hno; [exact Harm |].
  simpl in *. apply andb_prop in Hno as [Hev Hno].
  apply IH; [| exact Hno].
  destruct ev as [s |]; [| discriminate]. simpl. unfold race.
  destruct (result st); exact Harm.
Qed.

End Facts.

(** C5. A call whose target does not throw leaves a pending race with
    the timer armed (or, for a plain return value, a race already won by
    that value). If the method's settlement is delivered first, the
    wrapper's promise settles the same way: a value is returned as it
    is. If the timer callback is delivered first, the wrapper's promise
    rejects with '<methodName> timed out after <ms>ms'. In both cases
    nothing delivered afterwards changes the result: a method that
    settles after the timeout never reaches the caller. *)
Theorem C5_timeout_race
  (ms : Z) (methodName : string) (V : Type)
  (st : State V) (later : list (event V)) :
  result st = None -> timerArmed st = true ->
  (forall s : settled V,
      result (deliverAll ms methodName (MethodSettles s :: later) st)
        = Some s) /\
  result (deliverAll ms methodName (TimerFires :: later) st)
    = Some (Rejected
              (mkError (methodName +:+ " timed out after " +:+ pretty ms
                          +:+ "ms"))) /\
  (forall v : V,
      exists st0, replacementMethod (Returns v) = inr st0 /\
                  result (deliverAll ms methodName later st0)
                    = Some (Fulfilled v)) /\
  (forall (v : V) (e : Error),
      replacementMethod (Resolves v) = inr (mkState None true) /\
      replacementMethod (V:=V) (Rejects e) = inr (mkState None true)).
Proof.
  intros Hpending Harmed. split; [| split; [| split]].
  - intros s. simpl. apply decided_forever. unfold race. now rewrite Hpending.
  - simpl. apply decided_forever. rewrite Harmed. unfold race. simpl.
    now rewrite Hpending.
  - intros v. eexists. split; [reflexivity |]. now apply decided_forever.
  - intros v e. split; reflexivity.
Qed.

Lemma C5_witness :
  result (deliverAll 50 "slow" [MethodSettles (Fulfilled "done"); TimerFires]
            slowPending) = Some (Fulfilled "done") /\
  result (deliverAll 50 "slow" [TimerFires; MethodSettles (Fulfilled "late")]
            slowPending)
    = Some (Rejected (mkError "slow timed out after 50ms")).
Proof.
  destruct (C5_timeout_race 50 "slow" string slowPending [TimerFires]
              eq_refl eq_refl) as (Hfirst & _).
  destruct (C5_timeout_race 50 "slow" string slowPending
              [MethodSettles (Fulfilled "late")] eq_refl eq_refl)
    as (_ & Hlate & _).
  split; [apply Hfirst | exact Hlate].
Defined.

(** C6, as the code has it. Every call whose target does not throw
    arms the timer. When the method's settlement is delivered before
    the timer callback, the wrapper's promise settles with the method's
    outcome and the timer is not cancelled: it stays armed whatever
    else is delivered, until its own callback runs; that firing disarms
    it and leaves the wrapper's result as it was. *)
Theorem C6_timer_left_armed_when_method_wins
  (ms : Z) (methodName : string) (V : Type)
  (st : State V) (s : settled V) (quiet : list (event V)) :
  result st = None -> timerArmed st = true ->
  forallb (fun ev => negb (isTimerFires ev)) quiet = true ->
  let won := deliverAll ms methodName (MethodSettles s :: quiet) st in
  let fired := deliver ms methodName won TimerFires in
  result won = Some s /\ timerArmed won = true /\
  timerArmed fired = false /\ result fired = Some s /\
  (forall (does : outcome V) (st0 : State V),
      replacementMethod does = inr st0 -> timerArmed st0 = true).
Proof.
  intros Hpending Harmed Hquiet won fired.
  assert (Hstart : forall (does : outcome V) (st0 : State V),
             replacementMethod does = inr st0 -> timerArmed st0 = true).
  { intros does st0. destruct does; simpl; intros [= <-]; reflexivity. }
  assert (Hres : result won = Some s).
  { subst won. simpl. apply decided_forever. unfold race. now rewrite Hpending. }
  assert (Harm : timerArmed won = true).
  { subst won. apply armed_until_fired; [exact Harmed | exact Hquiet]. }
  split; [exact Hres |]. split; [exact Harm |].
  subst fired. simpl. rewrite Harm. unfold race. simpl. rewrite Hres.
  split; [reflexivity |]. split; [reflexivity | exact Hstart].
Qed.

(** The claim as worded, on the sample: the method wins the race and the
    timer should then be disarmed; it is still armed. *)
Lemma C6_counterexample_timer_not_disarmed :
  let won := deliverAll 50 "slow" [MethodSettles (Fulfilled "done")]
               slowPending in
  result won = Some (Fulfilled "done") /\ timerArmed won <> false.
Proof. vm_compute. split; [reflexivity | discriminate]. Qed.

Lemma C6_witness :
  let won := deliverAll 50 "slow"
               [MethodSettles (Fulfilled "done");
                MethodSettles (Fulfilled "again")] slowPending in
  result won = Some (Fulfilled "done") /\ timerArmed won = true /\
  timerArmed (deliver 50 "slow" won TimerFires) = false /\
  result (deliver 50 "slow" won TimerFires) = Some (Fulfilled "done").
Proof.
  destruct (C6_timer_left_armed_when_method_wins 50 "slow" string slowPending
              (Fulfilled "done") [MethodSettles (Fulfilled "again")]
              eq_refl eq_refl eq_refl) as (H1 & H2 & H3 & H4 & _).
  repeat split; assumption.
Defined.

End TimeoutSpec.

(** ** CircuitBreaker *)

Module CircuitBreakerSpec.
Import CircuitBreaker.

Section Facts.
Variable options : Options.
Context {V : Type}.

Lemma run_snoc (ks : list (call (V:=V))) (k : call) (c : CircuitState) :
  run options (ks ++ [k]) c = after options k (run options ks c).
Proof. unfold run. now rewrite fold_left_app. Qed.

(** The value a successful invocation hands back. *)
Lemma succeeds_inv (o : outcome V) :
  succeeds o = true -> exists v, o = Returns v \/ o = Resolves v.
Proof. destruct o; simpl; intros H; try discriminate; eauto. Qed.

Lemma fails_inv (k : call (V:=V)) :
  fails k = true -> exists e, does k = Throws e \/ does k = Rejects e.
Proof.
  unfold fails. destruct (does k); simpl; intros H; try discriminate; eauto.
Qed.

(** A successful call on a closed breaker: the target runs and nothing in
    the circuit state moves. *)
Lemma closed_success (k : call (V:=V)) (c : CircuitState) :
  state c = closed -> succeeds (does k) = true ->
  exists v, replacementMethod options k c = (Fulfilled v, c, [Invoke]).
Proof.
  intros Hc Hs. destruct (succeeds_inv _ Hs) as [v [Hv | Hv]]; exists v;
    unfold replacementMethod, gate, settle, handleSuccess;
    rewrite Hv; repeat (rewrite Hc; simpl); reflexivity.
Qed.

(** A failing call on a closed breaker counts the failure, stamps the
    time, and opens the breaker once the threshold is reached. *)
Lemma closed_failure (k : call (V:=V)) (c : CircuitState) :
  state c = closed -> fails k = true ->
  after options k c =
    {| failures := failures c + 1;
       state := if failureThreshold options <=? failures c + 1
                then open else closed;
       lastFailureTime := settledAt k |}.
Proof.
  intros Hc Hf. destruct (fails_inv _ Hf) as [e [He | He]];
    unfold after, replacementMethod, gate, settle, handleFailure, updateState;
    rewrite He; repeat (rewrite Hc; simpl);
    destruct (failureThreshold options <=? failures c + 1); simpl;
    rewrite ?Hc; reflexivity.
Qed.

Lemma failureTotal_snoc (ks : list (call (V:=V))) (k : call) :
  failureTotal (ks ++ [k]) =
  failureTotal ks + (if fails k then 1 else 0).
Proof.
  unfold failureTotal. rewrite filter_app, length_app.
  rewrite filter_cons, filter_nil.
  destruct (decide (fails k = true)) as [Hf | Hf].
  - rewrite Hf. simpl. lia.
  - destruct (fails k); [congruence |]. simpl. lia.
Qed.

(** While fewer than [failureThreshold] failures have been seen in
    total, the breaker is closed and [failures] is exactly their
    number, whatever successes came in between. *)
Lemma closed_while_below_threshold (ks : list (call (V:=V))) :
  failureTotal ks < failureThreshold options ->
  state (run options ks circuitState0) = closed /\
  failures (run options ks circuitState0) = failureTotal ks.
Proof.
  induction ks as [| k ks IH] using rev_ind.
  - intros _. split; reflexivity.
  - rewrite failureTotal_snoc, run_snoc. intros Hlt.
    assert (Hks : failureTotal ks < failureThreshold options)
      by (destruct (fails k); lia).
    destruct (IH Hks) as [Hst Hfa].
    destruct (fails k) eqn:Hf.
    + rewrite (closed_failure k _ Hst Hf). simpl.
      rewrite Hfa. split; [| reflexivity].
      destruct (Z.leb_spec (failureThreshold options) (failureTotal ks + 1));
        [lia | reflexivity].
    + assert (Hs : succeeds (does k) = true).
      { unfold fails in Hf. now destruct (succeeds (does k)). }
      destruct (closed_success k _ Hst Hs) as [v Hv].
      unfold after. rewrite Hv. simpl. split; [assumption | lia].
Qed.

End Facts.

Section Claims.
Variable options : Options.
Context {V : Type}.

(** C1. With [failureThreshold = 3], three consecutive failing calls on
    a fresh breaker leave it open. Every call that arrives while the
    breaker is open and less than [resetTimeout] after the last failure
    is rejected with the message 'Circuit breaker is open', emits no
    event (the target is not invoked) and leaves the circuit state as it
    was. The first call that arrives [resetTimeout] or more after the
    last failure moves the breaker to half-open and invokes the target;
    if the target succeeds, [failures] becomes 0 and the state closed. *)
Theorem C1_breaker_opens_rejects_and_recovers
  (k1 k2 k3 : call (V:=V)) :
  failureThreshold options = 3 ->
  fails k1 = true -> fails k2 = true -> fails k3 = true ->
  state (run options [k1; k2; k3] circuitState0) = open /\
  (forall (c : CircuitState) (k : call (V:=V)),
      state c = open ->
      calledAt k - lastFailureTime c < resetTimeout options ->
      replacementMethod options k c =
        (Rejected (mkError "Circuit breaker is open"), c, []) /\
      invoked options k c = false) /\
  (forall (c : CircuitState) (k : call (V:=V)),
      state c = open ->
      resetTimeout options <= calledAt k - lastFailureTime c ->
      invoked options k c = true /\
      (succeeds (does k) = true ->
       exists v,
         replacementMethod options k c =
           (Fulfilled v,
            {| failures := 0; state := closed;
               lastFailureTime := lastFailureTime c |},
            [StateChange half_open; Invoke; StateChange closed]))).
Proof.
  intros HT H1 H2 H3. split; [| split].
  - unfold run. cbn [fold_left].
    rewrite (closed_failure options k1 circuitState0 eq_refl H1).
    rewrite HT. cbn.
    change (if 3 <=? 0 + 1 then open else closed) with closed.
    rewrite (closed_failure options k2 (mkCircuit (0 + 1) closed (settledAt k1))
               eq_refl H2).
    rewrite HT. cbn.
    change (if 3 <=? 0 + 1 + 1 then open else closed) with closed.
    rewrite (closed_failure options k3
               (mkCircuit (0 + 1 + 1) closed (settledAt k2)) eq_refl H3).
    rewrite HT. reflexivity.
  - intros c k Hop Hlt.
    assert (Hr : replacementMethod options k c =
                 (Rejected (mkError "Circuit breaker is open"), c, [])).
    { unfold replacementMethod, gate. rewrite Hop.
      destruct (Z.leb_spec (resetTimeout options)
                  (calledAt k - lastFailureTime c)); [lia | reflexivity]. }
    split; [exact Hr |]. unfold invoked. rewrite Hr. reflexivity.
  - intros c k Hop Hge.
    assert (Hg : gate options (calledAt k) c =
                 (None, {| failures := failures c; state := half_open;
                           lastFailureTime := lastFailureTime c |},
                  [StateChange half_open])).
    { unfold gate, updateState. rewrite Hop. simpl.
      destruct (Z.leb_spec (resetTimeout options)
                  (calledAt k - lastFailureTime c)); [reflexivity | lia]. }
    split.
    + unfold invoked, replacementMethod. rewrite Hg.
      destruct (settle options (does k) (settledAt k) _) as [[r c2] ev'].
      apply bool_decide_eq_true. simpl. set_solver.
    + intros Hs. destruct (succeeds_inv _ Hs) as [v [Hv | Hv]]; exists v;
        unfold replacementMethod; rewrite Hg, Hv; reflexivity.
Qed.

(** C10. A successful call on a closed breaker invokes the target and
    leaves the whole circuit state, [failures] included, as it was.
    When an invocation settles, [failures] moves in two ways only: a
    failure adds one, and a success met in the half-open state resets
    it to 0 (and closes the breaker). Consequently, counting from a
    fresh breaker, the breaker stays closed with [failures] equal to
    the total number of failures so far, successes in between
    notwithstanding, and the failing call that brings the total to
    [failureThreshold] opens it. *)
Theorem C10_failures_survive_closed_successes :
  (forall (c : CircuitState) (k : call (V:=V)),
      state c = closed -> succeeds (does k) = true ->
      after options k c = c /\ invoked options k c = true) /\
  (forall (c : CircuitState) (o : outcome V) (now' : Z),
      let c' := snd (fst (settle options o now' c)) in
      failures c' <> failures c ->
      (succeeds o = false /\ failures c' = failures c + 1) \/
      (succeeds o = true /\ state c = half_open /\
       failures c' = 0 /\ state c' = closed)) /\
  (forall ks : list (call (V:=V)),
      failureTotal ks < failureThreshold options ->
      state (run options ks circuitState0) = closed /\
      failures (run options ks circuitState0) = failureTotal ks) /\
  (forall (ks : list (call (V:=V))) (k : call),
      fails k = true ->
      failureTotal (ks ++ [k]) = failureThreshold options ->
      state (run options (ks ++ [k]) circuitState0) = open /\
      failures (run options (ks ++ [k]) circuitState0) =
        failureThreshold options).
Proof.
  split; [| split; [| split]].
  - intros c k Hc Hs. destruct (closed_success options k c Hc Hs) as [v Hv].
    unfold after, invoked. rewrite Hv. split; reflexivity.
  - intros c o now' c' Hne. subst c'.
    destruct o as [v | e | v | e]; simpl in *.
    + right. unfold handleSuccess, updateState in *.
      destruct (state c) eqn:Hst; simpl in *; try congruence.
      repeat split; reflexivity || congruence.
    + left. unfold handleFailure, updateState in *. simpl in *.
      destruct (failureThreshold options <=? failures c + 1); simpl in *;
        [destruct (State_eqb (state c) open) |]; simpl; auto.
    + right. unfold handleSuccess, updateState in *.
      destruct (state c) eqn:Hst; simpl in *; try congruence.
      repeat split; reflexivity || congruence.
    + left. unfold handleFailure, updateState in *. simpl in *.
      destruct (failureThreshold options <=? failures c + 1); simpl in *;
        [destruct (State_eqb (state c) open) |]; simpl; auto.
  - apply closed_while_below_threshold.
  - intros ks k Hf Htot. rewrite failureTotal_snoc, Hf in Htot.
    destruct (closed_while_below_threshold options ks) as [Hst Hfa]; [lia |].
    rewrite run_snoc, (closed_failure options k _ Hst Hf). simpl.
    rewrite Hfa.
    destruct (Z.leb_spec (failureThreshold options) (failureTotal ks + 1));
      [split; [reflexivity | lia] | lia].
Qed.

End Claims.

(** C1 on the sample breaker: three rejections at 0, 10 and 20 ms open
    it; a call at 500 ms is turned away; a call at 1021 ms goes
    through and closes it. *)
Lemma C1_witness :
  let c3 := run demoOptions [boom 0; boom 10; boom 20] circuitState0 in
  state c3 = open /\
  replacementMethod demoOptions (fine 500) c3 =
    (Rejected (mkError "Circuit breaker is open"), c3, []) /\
  exists v,
    replacementMethod demoOptions (fine 1021) c3 =
      (Fulfilled v, mkCircuit 0 closed 21,
       [StateChange half_open; Invoke; StateChange closed]).
Proof.
  destruct (C1_breaker_opens_rejects_and_recovers demoOptions
              (boom 0) (boom 10) (boom 20)
              eq_refl eq_refl eq_refl eq_refl) as [Hopen [Hrej Hprobe]].
  split; [exact Hopen |]. split.
  - apply (Hrej _ (fine 500)); [exact Hopen | vm_compute; reflexivity].
  - destruct (Hprobe (run demoOptions [boom 0; boom 10; boom 20] circuitState0)
                (fine 1021) Hopen) as [_ Hok].
    + vm_compute. discriminate.
    + exact (Hok eq_refl).
Defined.

(** C10 on the sample breaker: failures at 0, 20 and 40 ms with
    successes at 10 and 30 ms in between still open it. *)
Lemma C10_witness :
  after demoOptions (fine 5) circuitState0 = circuitState0 /\
  state (run demoOptions [boom 0; fine 10; boom 20; fine 30] circuitState0)
    = closed /\
  state (run demoOptions ([boom 0; fine 10; boom 20; fine 30] ++ [boom 40])
           circuitState0) = open.
Proof.
  destruct (C10_failures_survive_closed_successes demoOptions (V:=string))
    as [Hsucc [_ [Hbelow Hopen]]].
  split; [| split].
  - apply (Hsucc circuitState0 (fine 5)); reflexivity.
  - apply (Hbelow [boom 0; fine 10; boom 20; fine 30]). vm_compute. reflexivity.
  - apply (Hopen [boom 0; fine 10; boom 20; fine 30] (boom 40));
      vm_compute; reflexivity.
Defined.

End CircuitBreakerSpec.

(** ** DebounceSync and DebounceAsync *)

Module DebounceSpec.
Import Debounce.

Lemma length_append (a b : string) :
  String.length (a +:+ b) = (String.length a + String.length b)%nat.
Proof.
  induction a as [| ch a IH]; [reflexivity |].
  change (S (String.length (a +:+ b))
          = S (String.length a + String.length b)). now rewrite IH.
Qed.

(** Two strings followed by the same suffix differ if they differ. *)
Lemma append_cancel_r (a b suffix : string) :
  a +:+ suffix = b +:+ suffix -> a = b.
Proof.
  revert b. induction a as [| ch a IH]; intros b Heq.
  - destruct b as [| ch' b]; [reflexivity |].
    apply (f_equal String.length) in Heq.
    change ("" +:+ suffix) with suffix in Heq.
    rewrite length_append in Heq. simpl in Heq. lia.
  - destruct b as [| ch' b].
    + apply (f_equal String.length) in Heq.
      change ("" +:+ suffix) with suffix in Heq.
      rewrite length_append in Heq. simpl in Heq. lia.
    + change (String ch (a +:+ suffix) = String ch' (b +:+ suffix)) in Heq.
      injection Heq as -> Heq. f_equal. now apply IH.
Qed.

Section Facts.
Context {V Args : Type}.
Variable variant : Variant.
Variable methodName : string.
Variable target : Instance -> Args -> outcome V.

Lemma keyOf_inj (this1 this2 : Instance) :
  keyOf methodName this1 = keyOf methodName this2 <->
  className this1 = className this2.
Proof.
  unfold keyOf. split; [apply append_cancel_r | now intros ->].
Qed.

Lemma wellFormed_initial : wellFormed (V:=V) (Args:=Args) initial.
Proof.
  split.
  - intros h _. split; apply lookup_empty.
  - intros key h. simpl. rewrite lookup_empty. discriminate.
Qed.

Lemma lookup_clearExisting_armed (existing : option nat)
    (timers : gmap nat (Instance * Args)) (h : nat) :
  timers !! h = None -> clearExisting existing timers !! h = None.
Proof.
  intros Hn. destruct existing as [h' |]; simpl; [| exact Hn].
  destruct (decide (h' = h)) as [-> | Hne];
    [apply lookup_delete_eq | now rewrite lookup_delete_ne].
Qed.

Lemma wellFormed_step (st : State V Args) (ev : event) :
  wellFormed st -> wellFormed (step variant methodName target st ev).
Proof.
  intros [Hfresh Hmap]. destruct ev as [this args | h]; simpl.
  - split; simpl.
    + intros h Hh. destruct (Hfresh h) as [Ha Hs]; [lia |]. split; [| exact Hs].
      rewrite lookup_insert_ne by lia.
      now apply lookup_clearExisting_armed.
    + intros key h.
      destruct (decide (keyOf methodName this = key)) as [<- | Hne].
      * rewrite lookup_insert_eq. intros [= <-]. lia.
      * rewrite lookup_insert_ne by exact Hne. intros Hk.
        specialize (Hmap key h Hk). lia.
  - unfold fire. destruct (armed st !! h) as [[this args] |] eqn:Hh;
      [| split; assumption].
    split; simpl; [| exact Hmap].
    intros h' Hh'. destruct (Hfresh h' Hh') as [Ha Hs].
    assert (h <> h') by congruence.
    split; [now rewrite lookup_delete_ne |].
    destruct (settlement variant (target this args));
      [now rewrite lookup_insert_ne | exact Hs].
Qed.

(** An abandoned promise stays abandoned, whatever is called or fires. *)
Lemma abandoned_step (p : nat) (st : State V Args) (ev : event) :
  abandoned p st -> abandoned p (step variant methodName target st ev).
Proof.
  intros (Ha & Hs & Hlt). destruct ev as [this args | h]; simpl.
  - repeat split; simpl; [| exact Hs | lia].
    rewrite lookup_insert_ne by lia. now apply lookup_clearExisting_armed.
  - unfold fire. destruct (armed st !! h) as [[this args] |] eqn:Hh;
      [| repeat split; assumption].
    assert (h <> p) by congruence.
    repeat split; simpl; [now rewrite lookup_delete_ne | | exact Hlt].
    destruct (settlement variant (target this args));
      [now rewrite lookup_insert_ne | exact Hs].
Qed.

Lemma abandoned_run (p : nat) (evs : list event) (st : State V Args) :
  abandoned p st -> abandoned p (run variant methodName target evs st).
Proof.
  revert st. induction evs as [| ev evs IH]; intros st Hab; [exact Hab |].
  simpl. apply IH, abandoned_step, Hab.
Qed.

End Facts.

(** C7, as the code has it. Every call returns a new promise, pending.
    When a second call for the same key arrives while the timer of the
    first is armed, the first timer is cleared: its callback never
    runs, and the promise of the superseded call never settles,
    whatever is called or fires afterwards. The timer of the last call,
    when it fires, invokes the target once, with the last call's
    receiver and arguments, and only the last caller's promise can
    settle: it is fulfilled with the value the invocation returns or
    resolves to, and rejected with the error of a promise the
    invocation returns. When the invocation throws, [DebounceAsync]
    rejects the promise with the error thrown, and [DebounceSync],
    whose timer callback never reaches [resolve], leaves it unsettled
    for good. *)
Theorem C7_superseded_promise_never_settles
  (V Args : Type) (variant : Variant) (methodName : string)
  (target : Instance -> Args -> outcome V)
  (st : State V Args) (this1 this2 : Instance) (args1 args2 : Args) :
  wellFormed st ->
  className this1 = className this2 ->
  let p1 := fst (replacementMethod methodName this1 args1 st) in
  let st1 := snd (replacementMethod methodName this1 args1 st) in
  let p2 := fst (replacementMethod methodName this2 args2 st1) in
  let st2 := snd (replacementMethod methodName this2 args2 st1) in
  let st3 := fire variant target p2 st2 in
  p1 <> p2 /\
  settledPromises st1 !! p1 = None /\ settledPromises st2 !! p2 = None /\
  (forall evs : list event,
      settledPromises (run variant methodName target evs st2) !! p1 = None) /\
  fire variant target p1 st2 = st2 /\
  executions st3 = executions st ++ [(this2, args2)] /\
  settledPromises st3 !! p2 = settlement variant (target this2 args2) /\
  (forall v, awaited (target this2 args2) = inl v ->
             settledPromises st3 !! p2 = Some (Fulfilled v)) /\
  (forall e, target this2 args2 = Rejects e ->
             settledPromises st3 !! p2 = Some (Rejected e)) /\
  (forall e, target this2 args2 = Throws e ->
             match variant with
             | Async => settledPromises st3 !! p2 = Some (Rejected e)
             | Sync =>
                 forall evs : list event,
                   settledPromises (run Sync methodName target evs st3) !! p2
                   = None
             end) /\
  settledPromises st3 !! p1 = None.
Proof.
  intros [Hfresh Hmap] Hclass p1 st1 p2 st2 st3.
  destruct (Hfresh (nextTimer st)) as [Ha1 Hs1]; [lia |].
  destruct (Hfresh (S (nextTimer st))) as [Ha2 Hs2]; [lia |].
  assert (Hkey : keyOf methodName this2 = keyOf methodName this1)
    by (unfold keyOf; now rewrite Hclass).
  assert (Hab : abandoned p1 st2).
  { subst p1 st2 st1. simpl. repeat split; simpl; [| exact Hs1 | lia].
    rewrite lookup_insert_ne by lia.
    rewrite Hkey, lookup_insert_eq. simpl. apply lookup_delete_eq. }
  split; [subst p1 p2; simpl; lia |].
  split; [exact Hs1 |]. split; [exact Hs2 |].
  split; [intros evs; apply (abandoned_run variant methodName target), Hab |].
  destruct Hab as (Hgone & Hunsettled & _).
  split; [unfold fire; now rewrite Hgone |].
  assert (Harmed2 : armed st2 !! p2 = Some (this2, args2))
    by (subst p2 st2; simpl; apply lookup_insert_eq).
  assert (Hst3 : st3 =
            mkState (timeoutMap st2) (delete p2 (armed st2))
              (match settlement variant (target this2 args2) with
               | Some s => <[p2 := s]> (settledPromises st2)
               | None => settledPromises st2
               end)
              (nextTimer st2) (executions st2 ++ [(this2, args2)])).
  { subst st3. unfold fire. now rewrite Harmed2. }
  assert (Hlast : settledPromises st3 !! p2
                  = settlement variant (target this2 args2)).
  { rewrite Hst3. cbn [settledPromises].
    destruct (settlement variant (target this2 args2));
      [apply lookup_insert_eq | exact Hs2]. }
  split; [rewrite Hst3; reflexivity |].
  split; [exact Hlast |].
  split.
  { intros v Hv. rewrite Hlast. unfold settlement.
    destruct (target this2 args2); simpl in Hv; try discriminate;
      now injection Hv as ->. }
  split; [intros e He; rewrite Hlast, He; reflexivity |].
  split.
  { intros e He. destruct variant.
    - intros evs. apply (abandoned_run Sync methodName target).
      rewrite Hst3, He. unfold abandoned. cbn.
      split; [apply lookup_delete_eq |]. split; [exact Hs2 | lia].
    - rewrite Hlast, He. reflexivity. }
  rewrite Hst3. cbn [settledPromises].
  destruct (settlement variant (target this2 args2)) as [s |];
    [| exact Hs1].
  rewrite lookup_insert_ne by (subst p1 p2; simpl; lia). exact Hs1.
Qed.

(** The claim as worded, on the sample: two calls of [search] on one
    instance within the delay, then both timers are given their turn.
    The target runs once, with the last query; the last caller's
    promise holds that outcome; the first caller's promise should hold
    it too, and is unsettled. *)
Lemma C7_counterexample_superseded_caller_unsettled :
  let st := run Sync "search" search
              [Call serviceA "a"; Call serviceA "ab"; Fire 0%nat; Fire 1%nat]
              initial in
  executions st = [(serviceA, "ab")] /\
  settledPromises st !! 1%nat = Some (Fulfilled "results for ab") /\
  settledPromises st !! 0%nat <> Some (Fulfilled "results for ab") /\
  settledPromises
    (run Async "search" search
       [Call serviceA "a"; Call serviceA "ab"; Fire 0%nat; Fire 1%nat] initial)
    !! 0%nat <> Some (Fulfilled "results for ab").
Proof. vm_compute. repeat split; (reflexivity || discriminate). Qed.

Lemma C7_witness :
  let st2 := run Sync "search" search
               [Call serviceA "a"; Call serviceA "ab"] initial in
  settledPromises (run Sync "search" search [Fire 0%nat; Fire 1%nat] st2)
    !! 0%nat = None /\
  settledPromises (fire Sync search 1%nat st2) !! 1%nat
    = Some (Fulfilled "results for ab").
Proof.
  destruct (C7_superseded_promise_never_settles string string Sync "search"
              search initial serviceA serviceA "a" "ab"
              wellFormed_initial eq_refl)
    as (_ & _ & _ & Hnever & _ & _ & Hlast & _).
  split; [exact (Hnever [Fire 0%nat; Fire 1%nat]) | exact Hlast].
Defined.

(** A target that throws when its timer fires: under [DebounceSync] the
    target has run and the caller's promise stays unsettled, under
    [DebounceAsync] the promise is rejected with the error thrown. *)
Example debounce_throwing_target :
  let failing := fun (_ : Instance) (_ : string) =>
                   Throws (V:=string) (mkError "boom") in
  let evs := [Call serviceA "a"; Fire 0%nat] in
  executions (run Sync "search" failing evs initial) = [(serviceA, "a")] /\
  settledPromises (run Sync "search" failing evs initial) !! 0%nat = None /\
  settledPromises (run Async "search" failing evs initial) !! 0%nat
    = Some (Rejected (mkError "boom")).
Proof. vm_compute. repeat split; reflexivity. Qed.

(** C8, as the code has it. The pending timer is looked up under
    [<class name>.<method name>]. A call on a receiver whose class has
    the same name as that of the receiver of the pending call, be it
    another instance, clears the pending timer and replaces it in
    [timeoutMap]: from then on the cleared timer never runs. A call on
    a receiver whose class has another name leaves the pending timer
    armed and in [timeoutMap], and that timer, when it fires, invokes
    the target with the pending call's receiver and arguments. *)
Theorem C8_debounce_keyed_by_class_name
  (V Args : Type) (variant : Variant) (methodName : string)
  (target : Instance -> Args -> outcome V)
  (st : State V Args) (this1 this2 : Instance) (args1 args2 : Args) :
  wellFormed st ->
  let p1 := fst (replacementMethod methodName this1 args1 st) in
  let st1 := snd (replacementMethod methodName this1 args1 st) in
  let p2 := fst (replacementMethod methodName this2 args2 st1) in
  let st2 := snd (replacementMethod methodName this2 args2 st1) in
  armed st1 !! p1 = Some (this1, args1) /\
  (className this1 = className this2 ->
   armed st2 !! p1 = None /\
   timeoutMap st2 !! keyOf methodName this1 = Some p2 /\
   forall evs : list event,
     fire variant target p1 (run variant methodName target evs st2)
     = run variant methodName target evs st2) /\
  (className this1 <> className this2 ->
   armed st2 !! p1 = Some (this1, args1) /\
   timeoutMap st2 !! keyOf methodName this1 = Some p1 /\
   executions (fire variant target p1 st2)
     = executions st ++ [(this1, args1)]).
Proof.
  intros [Hfresh Hmap] p1 st1 p2 st2.
  destruct (Hfresh (nextTimer st)) as [Ha1 Hs1]; [lia |].
  split; [subst p1 st1; simpl; apply lookup_insert_eq |]. split.
  - intros Hclass.
    assert (Hkey : keyOf methodName this2 = keyOf methodName this1)
      by (unfold keyOf; now rewrite Hclass).
    assert (Hab : abandoned p1 st2).
    { subst p1 st2 st1. simpl. repeat split; simpl; [| exact Hs1 | lia].
      rewrite lookup_insert_ne by lia.
      rewrite Hkey, lookup_insert_eq. simpl. apply lookup_delete_eq. }
    split; [apply Hab |].
    split; [subst st2 p2; simpl; rewrite Hkey; apply lookup_insert_eq |].
    intros evs.
    destruct (abandoned_run variant methodName target p1 evs st2 Hab)
      as (Hgone & _ & _).
    unfold fire. now rewrite Hgone.
  - intros Hclass.
    assert (Hkey : keyOf methodName this1 <> keyOf methodName this2)
      by (intros Heq; apply Hclass, (keyOf_inj methodName), Heq).
    assert (Harmed : armed st2 !! p1 = Some (this1, args1)).
    { subst p1 st2 st1. simpl. rewrite lookup_insert_ne by lia.
      rewrite lookup_insert_ne by exact Hkey.
      destruct (timeoutMap st !! keyOf methodName this2) as [h |] eqn:Hh;
        simpl; [| apply lookup_insert_eq].
      specialize (Hmap _ _ Hh).
      rewrite lookup_delete_ne by lia. apply lookup_insert_eq. }
    split; [exact Harmed |].
    split.
    + subst p1 st2 st1. simpl.
      rewrite lookup_insert_ne by (intros Heq; apply Hkey; now rewrite Heq).
      apply lookup_insert_eq.
    + unfold fire. rewrite Harmed. reflexivity.
Qed.

(** The claim as worded, on the sample: a call on one instance of
    [SearchService] is pending when another instance of the class is
    called. The first instance's timer should still be armed and its
    query executed; the timer is cleared, and only the second
    instance's query runs. *)
Lemma C8_counterexample_other_instance_cancels :
  let st2 := run Sync "search" search
               [Call serviceA "a"; Call serviceB "b"] initial in
  oid serviceA <> oid serviceB /\
  armed st2 !! 0%nat <> Some (serviceA, "a") /\
  executions (run Sync "search" search [Fire 0%nat; Fire 1%nat] st2)
    = [(serviceB, "b")].
Proof. vm_compute. repeat split; (reflexivity || discriminate). Qed.

Lemma C8_witness :
  armed (run Sync "search" search [Call serviceA "a"; Call serviceB "b"]
           initial) !! 0%nat = None /\
  armed (run Sync "search" search [Call serviceA "a"; Call indexer "b"]
           initial) !! 0%nat = Some (serviceA, "a").
Proof.
  destruct (C8_debounce_keyed_by_class_name string string Sync "search"
              search initial serviceA serviceB "a" "b" wellFormed_initial)
    as (_ & Hsame & _).
  destruct (C8_debounce_keyed_by_class_name string string Sync "search"
              search initial serviceA indexer "a" "b" wellFormed_initial)
    as (_ & _ & Hother).
  split.
  - apply Hsame. reflexivity.
  - apply Hother. vm_compute. discriminate.
Defined.

End DebounceSpec.

(** ** RateLimited *)

Module RateLimitedSpec.
Import RateLimited.

Lemma prefix_append (a b : string) : String.prefix a (a +:+ b) = true.
Proof.
  induction a as [| ch a IH]; simpl.
  - now destruct b.
  - destruct (Ascii.ascii_dec ch ch); [exact IH | congruence].
Qed.

Lemma append_assoc (a b c : string) : (a +:+ b) +:+ c = a +:+ (b +:+ c).
Proof.
  induction a as [| ch a IH]; [reflexivity |].
  change (String ch ((a +:+ b) +:+ c) = String ch (a +:+ (b +:+ c))).
  now rewrite IH.
Qed.

Lemma filter_all {A} (P : A -> Prop) `{forall x, Decision (P x)} (l : list A) :
  (length l <= length (filter P l))%nat -> filter P l = l.
Proof.
  induction l as [| x l IH]; [reflexivity |].
  rewrite filter_cons. destruct (decide (P x)); simpl; intros Hlen.
  - f_equal. apply IH. lia.
  - pose proof (length_filter P l). lia.
Qed.

Lemma foldl_min_spec (rest : list Z) :
  forall t, let o := foldl Z.min t rest in
            o ∈ t :: rest /\ forall u, u ∈ t :: rest -> o <= u.
Proof.
  induction rest as [| x rest IH]; intros t; simpl.
  - split; [apply list_elem_of_here |]. intros u Hu.
    apply list_elem_of_singleton in Hu. lia.
  - destruct (IH (Z.min t x)) as [Hin Hlow].
    assert (Hm : foldl Z.min (Z.min t x) rest <= Z.min t x)
      by (apply Hlow, list_elem_of_here).
    split.
    + apply elem_of_cons in Hin as [Heq | Hin].
      * rewrite Heq. destruct (Z.min_spec t x) as [[_ ->] | [_ ->]].
        -- apply list_elem_of_here.
        -- apply list_elem_of_further, list_elem_of_here.
      * do 2 apply list_elem_of_further. exact Hin.
    + intros u Hu.
      apply elem_of_cons in Hu as [-> | Hu]; [lia |].
      apply elem_of_cons in Hu as [-> | Hu]; [lia |].
      apply Hlow, list_elem_of_further, Hu.
Qed.

(** [Math.min] of a non-empty list is its least element. *)
Lemma Math_min_least (ts : list Z) :
  ts <> [] ->
  exists oldest, Math_min ts = Finite oldest /\ oldest ∈ ts /\
                 forall t, t ∈ ts -> oldest <= t.
Proof.
  destruct ts as [| t rest]; [congruence |]. intros _.
  exists (foldl Z.min t rest). split; [reflexivity |].
  apply foldl_min_spec.
Qed.

Section Facts.
Variable limit window : Z.
Variable methodName : string.
Context {V : Type}.

Lemma elem_of_prune (windowStart : Z) (ts : list Z) (t : Z) :
  t ∈ prune windowStart ts <-> t ∈ ts /\ windowStart < t.
Proof. unfold prune. rewrite list_elem_of_filter. tauto. Qed.

(** The wrapper at or over the limit: it throws, the map is untouched. *)
Lemma over_limit instanceId now (does : outcome V) st :
  limit <= Z.of_nat (length (prune (now - window)
                       (default [] (st !! keyOf methodName instanceId)))) ->
  replacementMethod limit window methodName instanceId now does st =
  (Throw (mkError (rateLimitMessage methodName
            (resetTimeOf (Math_min (prune (now - window)
               (default [] (st !! keyOf methodName instanceId))))
               window now))), st).
Proof.
  intros Hle. unfold replacementMethod.
  destruct (Z.leb_spec limit (Z.of_nat (length (prune (now - window)
              (default [] (st !! keyOf methodName instanceId))))));
    [reflexivity | lia].
Qed.

(** The wrapper under the limit: [now] is appended to the pruned record
    and the target is called. *)
Lemma under_limit instanceId now (does : outcome V) st :
  Z.of_nat (length (prune (now - window)
              (default [] (st !! keyOf methodName instanceId)))) < limit ->
  replacementMethod limit window methodName instanceId now does st =
  (TailCall does,
   <[keyOf methodName instanceId :=
       prune (now - window) (default [] (st !! keyOf methodName instanceId))
       ++ [now]]> st).
Proof.
  intros Hlt. unfold replacementMethod.
  destruct (Z.leb_spec limit (Z.of_nat (length (prune (now - window)
              (default [] (st !! keyOf methodName instanceId))))));
    [lia | reflexivity].
Qed.

(** No stored record is longer than [limit]. *)
Lemma record_bounded st :
  reachable limit window methodName (V:=V) st ->
  forall key ts, st !! key = Some ts -> Z.of_nat (length ts) <= limit.
Proof.
  induction 1 as [| instanceId now does st Hst IH]; intros key ts.
  - rewrite lookup_empty. discriminate.
  - unfold replacementMethod.
    destruct (Z.leb_spec limit (Z.of_nat (length (prune (now - window)
                (default [] (st !! keyOf methodName instanceId))))))
      as [Hle | Hlt]; simpl.
    + apply IH.
    + destruct (decide (keyOf methodName instanceId = key)) as [<- | Hne].
      * rewrite lookup_insert_eq. intros [= <-].
        rewrite length_app. simpl. lia.
      * rewrite lookup_insert_ne by exact Hne. apply IH.
Qed.

(** Hence, when a call is turned away, pruning removed nothing: the
    stored record already is the pruned one. *)
Lemma rejected_record_is_pruned st key windowStart :
  reachable limit window methodName (V:=V) st ->
  limit <= Z.of_nat (length (prune windowStart (default [] (st !! key)))) ->
  prune windowStart (default [] (st !! key)) = default [] (st !! key).
Proof.
  intros Hst Hle. apply filter_all.
  destruct (st !! key) as [ts |] eqn:Hk; simpl in *; [| lia].
  pose proof (record_bounded st Hst key ts Hk). unfold prune in Hle. lia.
Qed.

Lemma prune_cons_keep (windowStart t : Z) (ts : list Z) :
  windowStart < t -> prune windowStart (t :: ts) = t :: prune windowStart ts.
Proof. intros H. unfold prune. now rewrite filter_cons_True. Qed.

Lemma prune_cons_drop (windowStart t : Z) (ts : list Z) :
  t <= windowStart -> prune windowStart (t :: ts) = prune windowStart ts.
Proof. intros H. unfold prune. rewrite filter_cons_False; [reflexivity | lia]. Qed.

Lemma message_names_method (resetTime : num) :
  String.prefix ("Rate limit exceeded for " +:+ methodName)
    (rateLimitMessage methodName resetTime) = true.
Proof.
  unfold rateLimitMessage.
  rewrite <- (append_assoc "Rate limit exceeded for " methodName).
  apply prefix_append.
Qed.

End Facts.

(** [Math.ceil(r / 1000)] is the least number of whole seconds that
    covers [r] milliseconds. *)
Lemma ceilSeconds_least (r : Z) :
  exists seconds,
    ceilSeconds (Finite r) = Finite seconds /\
    1000 * (seconds - 1) < r <= 1000 * seconds.
Proof.
  exists (- ((- r) / 1000)). split; [reflexivity |].
  pose proof (Z.div_mod (- r) 1000 ltac:(lia)) as Hdm.
  pose proof (Z.mod_pos_bound (- r) 1000 ltac:(lia)) as Hmod.
  lia.
Qed.

(** C3. A call of the wrapper at time [now] on a reachable limiter
    state counts only the timestamps of its key that are newer than
    [now - window]. If that count is [limit] or more, the wrapper throws
    synchronously: the target is not invoked, the map is unchanged (the
    stored record already holds no older timestamp), and the message is
    'Rate limit exceeded for <methodName>. Try again in <s> seconds.',
    <s> being the decimal text of the least number of whole seconds
    that covers [oldest + window - now] ms, a positive duration,
    [oldest] being the oldest timestamp kept (with nothing kept, which
    takes a limit of 0 or less, <s> is 'Infinity'). Otherwise [now] is
    appended to the pruned record and the target is called. With limit
    2 and window 100, two calls pass, a third less than 100 ms after
    the first throws with 'Try again in 1 seconds.', and a call 100 ms
    or more after the first passes again. *)
Theorem C3_sliding_window_limit
  (limit window : Z) (methodName : string) (V : Type)
  (instanceId : string) (now : Z) (does : outcome V)
  (st : gmap string (list Z)) :
  reachable limit window methodName (V:=V) st ->
  let key := keyOf methodName instanceId in
  let stored := default [] (st !! key) in
  let kept := prune (now - window) stored in
  let r := replacementMethod limit window methodName instanceId now does st in
  (forall t, t ∈ kept <-> t ∈ stored /\ now - window < t) /\
  (limit <= Z.of_nat (length kept) ->
   r = (Throw (mkError (rateLimitMessage methodName
                  (resetTimeOf (Math_min kept) window now))), st) /\
   targetInvoked (fst r) = false /\
   String.prefix ("Rate limit exceeded for " +:+ methodName)
     (rateLimitMessage methodName (resetTimeOf (Math_min kept) window now))
     = true /\
   kept = stored /\
   (kept <> [] ->
    exists oldest seconds,
      oldest ∈ kept /\ (forall t, t ∈ kept -> oldest <= t) /\
      resetTimeOf (Math_min kept) window now
        = Finite (oldest + window - now) /\
      0 < oldest + window - now /\
      1000 * (seconds - 1) < oldest + window - now <= 1000 * seconds /\
      fst r = Throw (mkError ("Rate limit exceeded for " +:+ methodName
                                +:+ ". Try again in " +:+ pretty seconds
                                +:+ " seconds."))) /\
   (kept = [] ->
    fst r = Throw (mkError ("Rate limit exceeded for " +:+ methodName
                              +:+ ". Try again in Infinity seconds.")))) /\
  (Z.of_nat (length kept) < limit ->
   r = (TailCall does, <[key := kept ++ [now]]> st) /\
   targetInvoked (fst r) = true) /\
  (forall (t1 t2 t3 t4 : Z) (d1 d2 d3 d4 : outcome V),
      t1 <= t2 -> t2 <= t3 -> t3 < t1 + 100 -> t1 + 100 <= t4 ->
      let call := replacementMethod 2 100 methodName instanceId in
      let '(r1, s1) := call t1 d1 ∅ in
      let '(r2, s2) := call t2 d2 s1 in
      let '(r3, s3) := call t3 d3 s2 in
      let '(r4, s4) := call t4 d4 s3 in
      r1 = TailCall d1 /\ r2 = TailCall d2 /\
      r3 = Throw (mkError ("Rate limit exceeded for " +:+ methodName
                             +:+ ". Try again in 1 seconds.")) /\
      r4 = TailCall d4).
Proof.
  intros Hst key stored kept r. split; [| split; [| split]].
  - intros t. apply elem_of_prune.
  - intros Hle. subst r.
    rewrite (over_limit limit window methodName instanceId now does st Hle).
    split; [reflexivity |]. split; [reflexivity |].
    split; [apply message_names_method |].
    split.
    { apply (rejected_record_is_pruned limit window methodName (V:=V));
        assumption. }
    split.
    + intros Hne.
      destruct (Math_min_least kept Hne) as (o & Hmin & Hin & Hlow).
      destruct (ceilSeconds_least (o + window - now))
        as (seconds & Hceil & Hlo & Hhi).
      exists o, seconds. rewrite Hmin.
      split; [exact Hin |]. split; [exact Hlow |].
      split; [reflexivity |].
      split; [apply elem_of_prune in Hin; lia |].
      split; [split; [exact Hlo | exact Hhi] |].
      cbn [fst]. fold key stored kept. rewrite Hmin.
      unfold rateLimitMessage. cbn [resetTimeOf]. rewrite Hceil.
      reflexivity.
    + intros Hnil. cbn [fst]. fold key stored kept. now rewrite Hnil.
  - intros Hlt. subst r.
    rewrite (under_limit limit window methodName instanceId now does st Hlt).
    split; reflexivity.
  - intros t1 t2 t3 t4 d1 d2 d3 d4 H12 H23 H31 H14 call. subst call.
    rewrite under_limit
      by (rewrite lookup_empty; simpl; lia).
    rewrite lookup_empty. simpl.
    rewrite under_limit
      by (rewrite lookup_insert_eq; simpl;
          rewrite prune_cons_keep by lia; simpl; lia).
    rewrite lookup_insert_eq. simpl.
    rewrite prune_cons_keep by lia. simpl.
    rewrite insert_insert_eq.
    rewrite over_limit
      by (rewrite lookup_insert_eq; simpl;
          rewrite !prune_cons_keep by lia; simpl; lia).
    assert (Hfour : Z.of_nat (length (prune (t4 - 100) [t1; t2])) < 2).
    { rewrite prune_cons_drop by lia.
      pose proof (length_filter (fun t => t4 - 100 < t) [t2]) as Hlen.
      unfold prune. simpl in Hlen. lia. }
    rewrite under_limit by (rewrite lookup_insert_eq; exact Hfour).
    split; [reflexivity |]. split; [reflexivity |].
    split; [| reflexivity].
    rewrite lookup_insert_eq.
    change (default [] (Some [t1; t2])) with [t1; t2].
    rewrite !prune_cons_keep by lia.
    destruct (ceilSeconds_least (Z.min t1 t2 + 100 - t3))
      as (seconds & Hceil & Hlo & Hhi).
    assert (seconds = 1) by lia. subst seconds.
    unfold rateLimitMessage.
    change (prune (t3 - 100) []) with (@nil Z).
    cbn [Math_min foldl resetTimeOf]. rewrite Hceil. reflexivity.
Qed.

Example rate_limit_sample :
  afterTwoCalls !! "Test:method" = Some [0; 10] /\
  fst (testCall 50 afterTwoCalls) =
    Throw (mkError "Rate limit exceeded for method. Try again in 1 seconds.") /\
  fst (testCall 100 afterTwoCalls) = TailCall (Returns "result") /\
  snd (testCall 100 afterTwoCalls) !! "Test:method" = Some [10; 100].
Proof. vm_compute. repeat split; reflexivity. Qed.

Lemma C3_witness :
  reachable 2 100 "method" (V:=string) afterTwoCalls /\
  testCall 50 afterTwoCalls =
    (Throw (mkError "Rate limit exceeded for method. Try again in 1 seconds."),
     afterTwoCalls) /\
  prune (50 - 100) (default [] (afterTwoCalls !! "Test:method"))
    = default [] (afterTwoCalls !! "Test:method").
Proof.
  assert (Hreach : reachable 2 100 "method" (V:=string) afterTwoCalls).
  { unfold afterTwoCalls, testCall. do 2 apply reachable_call.
    apply reachable_init. }
  split; [exact Hreach |].
  destruct (C3_sliding_window_limit 2 100 "method" string "Test" 50
              (Returns "result") afterTwoCalls Hreach)
    as (_ & Hover & _ & _).
  destruct Hover as (Hr & _ & _ & Hkept & _).
  - vm_compute. discriminate.
  - split; [exact Hr | exact Hkept].
Defined.

End RateLimitedSpec.

(** ** Cached *)

Module CachedSpec.
Import Cached.

Lemma lookup_foldr_delete {A} (m : gmap string A) (ks : list string)
    (k : string) :
  foldr delete m ks !! k = if decide (k ∈ ks) then None else m !! k.
Proof.
  induction ks as [| k' ks IH]; simpl.
  - destruct (decide (k ∈ [])) as [Hin | _]; [| reflexivity].
    now apply not_elem_of_nil in Hin.
  - destruct (decide (k' = k)) as [-> | Hne].
    + rewrite lookup_delete_eq.
      destruct (decide (k ∈ k :: ks)) as [_ | Hn]; [reflexivity |].
      exfalso. apply Hn, list_elem_of_here.
    + rewrite lookup_delete_ne by exact Hne. rewrite IH.
      destruct (decide (k ∈ ks)) as [Hin | Hnin];
        destruct (decide (k ∈ k' :: ks)) as [Hin' | Hnin']; try reflexivity.
      * exfalso. apply Hnin', list_elem_of_further, Hin.
      * apply elem_of_cons in Hin' as [-> | Hin']; [congruence | contradiction].
Qed.

Section Facts.
Context {V Args : Type}.
Variable expiryTime : option Z.
Variable key : option (Args -> string).
Variable methodName : string.
Variable JSON_stringify : Args -> string.

(** What [unexpired] accepts: no expiry, the falsy expiry 0, or an
    expiry later than [now]. *)
Lemma unexpired_iff (cached : CacheEntry V) (now : Z) :
  unexpired cached now = true <->
  expiry cached = None \/ expiry cached = Some 0 \/
  exists e, expiry cached = Some e /\ now < e.
Proof.
  unfold unexpired, truthy. destruct (expiry cached) as [e |]; simpl.
  - destruct (Z.eqb_spec e 0) as [-> | Hne]; simpl.
    + split; auto.
    + destruct (Z.ltb_spec now e) as [Hlt | Hge]; split; intros Hu.
      * right. right. eauto.
      * reflexivity.
      * discriminate.
      * destruct Hu as [Hx | [Hx | (e' & Hx & Hlt)]]; try congruence.
        injection Hx as ->. lia.
  - split; auto.
Qed.

(** Every call registers its key with the method, hit or miss. *)
Lemma key_registered className args now (does : outcome V) now' st :
  cacheKeyOf key methodName JSON_stringify className args
  ∈ methodCacheKeys
      (snd (replacementMethod expiryTime key methodName JSON_stringify
              className args now does now' st)).
Proof.
  unfold replacementMethod.
  destruct (cache st !! _) as [cached |]; [destruct (unexpired cached now) |];
    simpl; set_solver.
Qed.

Lemma keys_grow className args now (does : outcome V) now' st :
  methodCacheKeys st ⊆
  methodCacheKeys
    (snd (replacementMethod expiryTime key methodName JSON_stringify
            className args now does now' st)).
Proof.
  unfold replacementMethod.
  destruct (cache st !! _) as [cached |]; [destruct (unexpired cached now) |];
    simpl; set_solver.
Qed.

(** After [invalidate], the registered keys are gone from the cache. *)
Lemma invalidate_lookup (st : State V) (k : string) :
  k ∈ methodCacheKeys st -> cache (invalidate st) !! k = None.
Proof.
  intros Hin. unfold invalidate. simpl. rewrite lookup_foldr_delete.
  destruct (decide (k ∈ elements (methodCacheKeys st))) as [_ | Hn];
    [reflexivity |].
  exfalso. apply Hn, elem_of_elements, Hin.
Qed.

Lemma invalidate_keeps_absent (st : State V) (k : string) :
  cache st !! k = None -> cache (invalidate st) !! k = None.
Proof.
  intros Hn. unfold invalidate. simpl. rewrite lookup_foldr_delete.
  now destruct (decide (k ∈ elements (methodCacheKeys st))).
Qed.

(** A call made with another key leaves the entry of [k] alone. *)
Lemma other_key_untouched className args now (does : outcome V) now' st k :
  cacheKeyOf key methodName JSON_stringify className args <> k ->
  cache (snd (replacementMethod expiryTime key methodName JSON_stringify
                className args now does now' st)) !! k
  = cache st !! k.
Proof.
  intros Hne. unfold replacementMethod.
  set (cacheKey := cacheKeyOf key methodName JSON_stringify className args)
    in *.
  assert (Hcompute : forall c, compute expiryTime cacheKey does now' c !! k
                               = c !! k).
  { intros c. unfold compute.
    destruct does; try reflexivity; now rewrite lookup_insert_ne. }
  destruct (cache st !! cacheKey) as [cached |];
    [destruct (unexpired cached now) |]; simpl; try reflexivity.
  - now rewrite Hcompute, lookup_delete_ne.
  - apply Hcompute.
Qed.

Lemma covered_act (k : string) (st : State V)
    (a : action (V:=V) (Args:=Args)) :
  covered k st \/ produces key methodName JSON_stringify k a ->
  covered k (act expiryTime key methodName JSON_stringify st a).
Proof.
  intros Hc. destruct a as [c |]; simpl in *.
  - unfold after.
    destruct (decide (cacheKeyOf key methodName JSON_stringify
                        (Cached.className c) (Cached.args c) = k))
      as [<- | Hne].
    + left. apply key_registered.
    + destruct Hc as [[Hin | Hnone] | Hp]; [| | contradiction].
      * left. revert Hin. apply keys_grow.
      * right. now rewrite other_key_untouched.
  - right. destruct Hc as [[Hin | Hnone] | []].
    + now apply invalidate_lookup.
    + now apply invalidate_keeps_absent.
Qed.

Lemma covered_play (k : string) (history : list (action (V:=V) (Args:=Args)))
    (st : State V) :
  covered k st \/ Exists (produces key methodName JSON_stringify k) history ->
  covered k (play expiryTime key methodName JSON_stringify history st).
Proof.
  revert st. induction history as [| a history IH]; intros st Hc; simpl.
  - destruct Hc as [Hc | Hex]; [exact Hc | inversion Hex].
  - apply IH. destruct Hc as [Hc | Hex].
    + left. apply covered_act. now left.
    + apply Exists_cons in Hex as [Hp | Hex]; [| now right].
      left. apply covered_act. now right.
Qed.

(** *** Calls that overlap *)

(** What [start] returns and registers is what the whole call does. *)
Lemma start_completion (k : call (V:=V) (Args:=Args)) (st : State V) :
  fst (fst (start expiryTime key methodName JSON_stringify k st))
  = fst (replacementMethod expiryTime key methodName JSON_stringify
           (className k) (args k) (calledAt k) (does k) (storedAt k) st) /\
  methodCacheKeys (snd (fst (start expiryTime key methodName JSON_stringify k st)))
  = {[cacheKeyOf key methodName JSON_stringify (className k) (args k)]} ∪ methodCacheKeys st.
Proof.
  unfold start, replacementMethod.
  destruct (cache st !! _) as [cached |];
    [destruct (unexpired cached (calledAt k)) |];
    destruct (does k); split; reflexivity.
Qed.

Lemma start_other_key (k : call (V:=V) (Args:=Args)) (st : State V)
    (c : string) :
  cacheKeyOf key methodName JSON_stringify (className k) (args k) <> c -> cache (snd (fst (start expiryTime key methodName JSON_stringify k st))) !! c = cache st !! c.
Proof.
  intros Hne. unfold start.
  destruct (cache st !! _) as [cached |];
    [destruct (unexpired cached (calledAt k)) |];
    destruct (does k); cbn [fst snd cache];
    rewrite ?lookup_insert_ne, ?lookup_delete_ne by exact Hne; reflexivity.
Qed.

Lemma start_store (k : call (V:=V) (Args:=Args)) (st : State V) (p : Store) :
  snd (start expiryTime key methodName JSON_stringify k st) = Some p -> storeKey p = cacheKeyOf key methodName JSON_stringify (className k) (args k).
Proof.
  unfold start.
  destruct (cache st !! _) as [cached |];
    [destruct (unexpired cached (calledAt k)) |];
    destruct (does k); cbn [snd]; intros Hp; try discriminate;
    now injection Hp as <-.
Qed.

(** A call followed to its settlement is its beginning followed at once
    by its store. *)
Lemma sequential_step (k : call (V:=V) (Args:=Args)) (st : State V) :
  step expiryTime key methodName JSON_stringify (step expiryTime key methodName JSON_stringify (mkRunning st []) (Begin k)) (Settle 0%nat)
  = mkRunning (after expiryTime key methodName JSON_stringify k st) [].
Proof.
  unfold after, replacementMethod. cbn [step current pending]. unfold start.
  destruct (cache st !! _) as [cached |];
    [destruct (unexpired cached (calledAt k)) |];
    destruct (does k); reflexivity.
Qed.

Lemma interleave_sequential (history : list (action (V:=V) (Args:=Args))) :
  forall st : State V,
    interleave expiryTime key methodName JSON_stringify
      (sequential history) (mkRunning st [])
    = mkRunning (play expiryTime key methodName JSON_stringify history st) [].
Proof.
  induction history as [| a history IH]; intros st; [reflexivity |].
  destruct a as [k |].
  - change (sequential (Do k :: history))
      with (Begin k :: Settle 0%nat :: sequential history).
    unfold interleave in *. cbn [fold_left].
    rewrite sequential_step. apply IH.
  - apply IH.
Qed.

(** Histories of calls each followed to its settlement are calm for
    every key: nothing is pending when the invalidation method runs. *)
Lemma calm_sequential (history : list (action (V:=V) (Args:=Args)))
    (cacheKey : string) :
  forall st : State V,
    calm expiryTime key methodName JSON_stringify cacheKey
      (sequential history) (mkRunning st []) = true.
Proof.
  induction history as [| a history IH]; intros st; [reflexivity |].
  destruct a as [k |].
  - change (sequential (Do k :: history))
      with (Begin k :: Settle 0%nat :: sequential history).
    cbn [calm andb]. rewrite sequential_step. apply IH.
  - change (sequential (Invalidate :: history))
      with (Invalidation :: sequential history).
    cbn [calm step current pending]. apply IH.
Qed.

Lemma noStorePending_lookup (c : string) (r : Running (V:=V)) (n : nat)
    (p : Store) :
  noStorePending c r = true -> pending r !! n = Some p -> storeKey p <> c.
Proof.
  unfold noStorePending. generalize (pending r). intros l. revert n.
  induction l as [| q l IH]; intros n Hall Hn; [discriminate |].
  cbn in Hall. apply andb_prop in Hall as [Hq Hall].
  destruct n as [| n]; [| exact (IH n Hall Hn)].
  injection Hn as ->.
  destruct (String.eqb_spec (storeKey p) c); [discriminate | assumption].
Qed.

Lemma noStorePending_delete (c : string) (st st' : State V)
    (l : list Store) (n : nat) :
  noStorePending c (mkRunning st l) = true ->
  noStorePending c (mkRunning st' (delete n l)) = true.
Proof.
  unfold noStorePending. cbn [pending]. revert n.
  induction l as [| q l IH]; intros n Hall; [now destruct n |].
  cbn in Hall. apply andb_prop in Hall as [Hq Hall].
  destruct n as [| n]; [exact Hall |].
  cbn. rewrite Hq. exact (IH n Hall).
Qed.

Lemma noStorePending_start (c : string) (r : Running (V:=V))
    (k : call (V:=V) (Args:=Args)) :
  cacheKeyOf key methodName JSON_stringify (className k) (args k) <> c -> noStorePending c r = true ->
  noStorePending c (step expiryTime key methodName JSON_stringify r (Begin k)) = true.
Proof.
  intros Hne Hnone. cbn [step].
  destruct (start expiryTime key methodName JSON_stringify k (current r)) as [[res st] later] eqn:Hs.
  unfold noStorePending in *. cbn [pending].
  rewrite forallb_app, Hnone. destruct later as [p |]; [| reflexivity].
  pose proof (start_store k (current r) p) as Hp. rewrite Hs in Hp.
  cbn. rewrite (Hp eq_refl).
  destruct (String.eqb_spec (cacheKeyOf key methodName JSON_stringify (className k) (args k)) c); [contradiction | reflexivity].
Qed.

(** Coverage survives every step, an invalidation included when no
    store of the key is pending; the beginning of a call that produces
    the key establishes it. *)
Lemma coveredRunning_step (c : string) (r : Running (V:=V)) (ev : event) :
  coveredRunning c r \/ begins key methodName JSON_stringify c ev ->
  (ev = Invalidation -> noStorePending c r = true) ->
  coveredRunning c (step expiryTime key methodName JSON_stringify r ev).
Proof.
  intros Hc Hcalm. destruct ev as [k | n |].
  - destruct (start_completion k (current r)) as [_ Hkeys].
    destruct (decide (cacheKeyOf key methodName JSON_stringify (className k) (args k) = c)) as [Hk | Hk].
    + left. cbn [step].
      destruct (start expiryTime key methodName JSON_stringify k (current r)) as [[res st] later].
      cbn [current fst snd] in *. rewrite Hkeys, Hk.
      apply elem_of_union. left. now apply elem_of_singleton.
    + destruct Hc as [[Hin | [Hnone Hpend]] | Hb]; [| | contradiction].
      * left. cbn [step].
        destruct (start expiryTime key methodName JSON_stringify k (current r)) as [[res st] later].
        cbn [current fst snd] in *. rewrite Hkeys.
        apply elem_of_union. now right.
      * right. split; [| now apply noStorePending_start].
        pose proof (start_other_key k (current r) c Hk) as Hsame.
        cbn [step].
        destruct (start expiryTime key methodName JSON_stringify k (current r)) as [[res st] later].
        cbn [current fst snd] in *. now rewrite Hsame.
  - destruct Hc as [Hc | []]. cbn [step].
    destruct (pending r !! n) as [p |] eqn:Hn; [| exact Hc].
    destruct Hc as [Hin | [Hnone Hpend]]; [now left |].
    right. cbn [current finish cache].
    pose proof (noStorePending_lookup c r n p Hpend Hn) as Hne.
    rewrite lookup_insert_ne by exact Hne.
    split; [exact Hnone |].
    destruct r as [st l]. now apply (noStorePending_delete c st).
  - specialize (Hcalm eq_refl). right. cbn [step current].
    split; [| exact Hcalm].
    destruct Hc as [[Hin | [Hnone _]] | []].
    + now apply invalidate_lookup.
    + now apply invalidate_keeps_absent.
Qed.

Lemma coveredRunning_interleave (c : string) (history : list event) :
  forall r : Running (V:=V),
    coveredRunning c r
    \/ Exists (begins key methodName JSON_stringify c) history ->
    calm expiryTime key methodName JSON_stringify c history r = true ->
    coveredRunning c
      (interleave expiryTime key methodName JSON_stringify history r).
Proof.
  induction history as [| ev history IH]; intros r Hc Hcalm.
  - destruct Hc as [Hc | Hex]; [exact Hc | inversion Hex].
  - cbn [calm] in Hcalm. apply andb_prop in Hcalm as [Hev Hcalm].
    assert (Hquiet : ev = Invalidation -> noStorePending c r = true)
      by (intros ->; exact Hev).
    apply IH; [| exact Hcalm]. destruct Hc as [Hc | Hex].
    + left. apply coveredRunning_step; [now left | exact Hquiet].
    + apply Exists_cons in Hex as [Hb | Hex]; [| now right].
      left. apply coveredRunning_step; [now right | exact Hquiet].
Qed.

Lemma calm_app (c : string) (history later : list event) :
  forall r : Running (V:=V),
    calm expiryTime key methodName JSON_stringify c (history ++ later) r
    = calm expiryTime key methodName JSON_stringify c history r
      && calm expiryTime key methodName JSON_stringify c later
           (interleave expiryTime key methodName JSON_stringify history r).
Proof.
  induction history as [| ev history IH]; intros r; [reflexivity |].
  cbn [app calm]. rewrite IH. now rewrite andb_assoc.
Qed.

End Facts.

(** C4, as the code has it. For a call of the wrapper with cache key
    [cacheKey] at time [now]:
    - if the cache holds an entry for the key whose expiry is absent, is
      0, or is later than [now], the stored value is returned, the
      target is not invoked and the cache is unchanged;
    - if the cache holds no entry for the key, or one whose non-zero
      expiry is [now] or earlier, the target is invoked; a value it
      produces is stored with expiry [now' + expiryTime] when
      [expiryTime] is set and not 0, and with no expiry otherwise
      ([now'] being the time of storing); a failure stores nothing;
    - after any history of calls, each followed to its settlement, and
      invalidations of the method in which the key was produced, the
      invalidation method leaves the key out of the cache, and the next
      call with that key invokes the target again;
    - the same holds when calls overlap, after any history of
      beginnings of calls, settlements and invalidations in which the
      key was produced and no invalidation, the last one included, was
      made while a call was still to store under the key. *)
Theorem C4_cache_hit_miss_invalidate
  (V Args : Type) (expiryTime : option Z) (key : option (Args -> string))
  (methodName : string) (JSON_stringify : Args -> string)
  (st : State V) (className : string) (args : Args) (now now' : Z)
  (does : outcome V) :
  let wrapper := replacementMethod expiryTime key methodName JSON_stringify in
  let cacheKey := cacheKeyOf key methodName JSON_stringify className args in
  let r := wrapper className args now does now' st in
  (forall cached,
      cache st !! cacheKey = Some cached ->
      (expiry cached = None \/ expiry cached = Some 0 \/
       exists e, expiry cached = Some e /\ now < e) ->
      fst r = FromCache (value cached) /\ cache (snd r) = cache st) /\
  ((cache st !! cacheKey = None \/
    exists cached e, cache st !! cacheKey = Some cached /\
                     expiry cached = Some e /\ e <> 0 /\ e <= now) ->
   fst r = Computed does /\
   (forall v, awaited does = inl v ->
      cache (snd r) !! cacheKey =
        Some {| value := v;
                expiry := match expiryTime with
                          | Some ttl => if ttl =? 0 then None
                                        else Some (now' + ttl)
                          | None => None
                          end |}) /\
   (forall e, awaited does = inr e -> cache (snd r) !! cacheKey = None)) /\
  (forall (history : list (action (V:=V) (Args:=Args))) (st0 : State V)
          (again : call),
      Exists (produces key methodName JSON_stringify cacheKey) history ->
      cacheKeyOf key methodName JSON_stringify (Cached.className again)
        (Cached.args again) = cacheKey ->
      let st' := invalidate
                   (play expiryTime key methodName JSON_stringify history st0)
      in
      cache st' !! cacheKey = None /\
      fst (wrapper (Cached.className again) (Cached.args again)
             (calledAt again) (Cached.does again) (storedAt again) st')
        = Computed (Cached.does again)) /\
  (forall (history : list (event (V:=V) (Args:=Args))) (r0 : Running)
          (again : call),
      Exists (begins key methodName JSON_stringify cacheKey) history ->
      calm expiryTime key methodName JSON_stringify cacheKey
        (history ++ [Invalidation]) r0 = true ->
      cacheKeyOf key methodName JSON_stringify (Cached.className again)
        (Cached.args again) = cacheKey ->
      let r' := interleave expiryTime key methodName JSON_stringify
                  (history ++ [Invalidation]) r0 in
      cache (current r') !! cacheKey = None /\
      noStorePending cacheKey r' = true /\
      fst (fst (start expiryTime key methodName JSON_stringify again
                  (current r')))
        = Computed (Cached.does again)).
Proof.
  intros wrapper cacheKey r. split; [| split; [| split]].
  - intros cached Hlk Hfresh.
    apply (unexpired_iff cached now) in Hfresh.
    subst r wrapper. unfold replacementMethod. fold cacheKey.
    rewrite Hlk, Hfresh. split; reflexivity.
  - intros Hmiss.
    assert (Hr : r = (Computed does,
                      mkState (compute expiryTime cacheKey does now'
                                 (delete cacheKey (cache st)))
                        ({[cacheKey]} ∪ methodCacheKeys st))).
    { subst r wrapper. unfold replacementMethod. fold cacheKey.
      destruct Hmiss as [Hnone | (cached & e & Hlk & Hexp & Hnz & Hle)].
      - rewrite Hnone. now rewrite (delete_id (cache st) cacheKey Hnone).
      - rewrite Hlk.
        destruct (unexpired cached now) eqn:Hu; [| reflexivity].
        apply unexpired_iff in Hu.
        destruct Hu as [Hx | [Hx | (e' & Hx & Hlt)]]; try congruence.
        assert (e' = e) by congruence. lia. }
    rewrite Hr. simpl. split; [reflexivity |]. split.
    + intros v Hv. unfold compute, newEntry, truthy.
      destruct does as [v0 | e0 | v0 | e0]; simpl in Hv; try discriminate;
        injection Hv as ->; rewrite lookup_insert_eq;
        (destruct expiryTime as [ttl |]; [destruct (ttl =? 0) |]);
        reflexivity.
    + intros e He. unfold compute.
      destruct does as [v0 | e0 | v0 | e0]; simpl in He; try discriminate;
        apply lookup_delete_eq.
  - intros history st0 again Hproduced Hkey st'.
    assert (Hnone : cache st' !! cacheKey = None).
    { subst st'.
      destruct (covered_play expiryTime key methodName JSON_stringify
                  cacheKey history st0 (or_intror Hproduced))
        as [Hin | Hnone].
      - now apply invalidate_lookup.
      - now apply invalidate_keeps_absent. }
    split; [exact Hnone |].
    subst wrapper. unfold replacementMethod. rewrite Hkey, Hnone. reflexivity.
  - intros history r0 again Hproduced Hcalm Hkey r'.
    rewrite calm_app in Hcalm. apply andb_prop in Hcalm as [Hcalm Hlast].
    cbn [calm] in Hlast. rewrite andb_true_r in Hlast.
    pose proof (coveredRunning_interleave expiryTime key methodName
                  JSON_stringify cacheKey history r0 (or_intror Hproduced)
                  Hcalm) as Hcov.
    assert (Hr' : r' = mkRunning
                         (invalidate
                            (current (interleave expiryTime key methodName
                                        JSON_stringify history r0)))
                         (pending (interleave expiryTime key methodName
                                     JSON_stringify history r0))).
    { subst r'. unfold interleave. now rewrite fold_left_app. }
    assert (Hnone : cache (current r') !! cacheKey = None).
    { rewrite Hr'. cbn [current].
      destruct Hcov as [Hin | [Hnone _]].
      - now apply invalidate_lookup.
      - now apply invalidate_keeps_absent. }
    split; [exact Hnone |]. split; [rewrite Hr'; exact Hlast |].
    destruct (start_completion expiryTime key methodName JSON_stringify
                again (current r')) as [-> _].
    unfold replacementMethod. rewrite Hkey, Hnone. reflexivity.
Qed.

(** The store of a call that is pending when the invalidation method
    runs comes after it: the entry is back, under a key no longer
    registered with the method, so that the next call is served from
    the cache, and so is a call made after a second invalidation. *)
Example invalidation_undone_by_pending_store :
  let first := mkCall "DataService" "42" 1000 (Resolves "v1") 1500 in
  let next := mkCall "DataService" "42" 2000 (Resolves "v2") 2500 in
  let cacheKey := cacheKeyOf None "fetchData" stringifyId "DataService" "42" in
  let history := [Begin first; Invalidation; Settle 0%nat] in
  let r := interleave (Some 5000) None "fetchData" stringifyId history
             (mkRunning emptyState []) in
  calm (Some 5000) None "fetchData" stringifyId cacheKey history
    (mkRunning emptyState []) = false /\
  cache (current r) !! cacheKey = Some (mkEntry "v1" (Some 6500)) /\
  fst (fst (start (Some 5000) None "fetchData" stringifyId next (current r)))
    = FromCache "v1" /\
  fst (fst (start (Some 5000) None "fetchData" stringifyId next
              (invalidate (current r))))
    = FromCache "v1".
Proof. vm_compute. repeat split; reflexivity. Qed.

(** The claim as worded, at [expiryTime = 0]: the first call at 1000 ms
    is a miss, and the stored entry should expire at 1000 + 0; the code
    stores no expiry, and a call at 2000 ms is served from the cache. *)
Lemma C4_counterexample_expiryTime_zero :
  let id := "42" in
  let cacheKey := cacheKeyOf None "fetchData" stringifyId "DataService" id in
  let st1 := snd (fetchData (Some 0) id 1000 "v1" emptyState) in
  expiry <$> (cache st1 !! cacheKey) <> Some (spec_expiry (Some 0) 1000) /\
  expiry <$> (cache st1 !! cacheKey) = Some None /\
  fst (fetchData (Some 0) id 2000 "v2" st1) = FromCache "v1".
Proof. vm_compute. repeat split; (discriminate || reflexivity). Qed.

Lemma C4_witness :
  let id := "42" in
  let cacheKey := cacheKeyOf None "fetchData" stringifyId "DataService" id in
  let st1 := snd (fetchData (Some 5000) id 1000 "v1" emptyState) in
  cache st1 !! cacheKey = Some (mkEntry "v1" (Some 6000)) /\
  fst (fetchData (Some 5000) id 5999 "v2" st1) = FromCache "v1" /\
  fst (fetchData (Some 5000) id 6000 "v2" st1) = Computed (Resolves "v2") /\
  fst (fetchData (Some 5000) id 1001 "v2" (invalidate st1))
    = Computed (Resolves "v2") /\
  (let first := mkCall "DataService" id 1000 (Resolves "v1") 1500 in
   let other := mkCall "DataService" "43" 1100 (Resolves "w") 3000 in
   let again := mkCall "DataService" id 2000 (Resolves "v2") 2500 in
   let r := interleave (Some 5000) None "fetchData" stringifyId
              [Begin first; Begin other; Settle 0%nat; Invalidation]
              (mkRunning emptyState []) in
   fst (fst (start (Some 5000) None "fetchData" stringifyId again
               (current r)))
   = Computed (Resolves "v2")).
Proof.
  intros id cacheKey st1.
  destruct (C4_cache_hit_miss_invalidate string string (Some 5000) None
              "fetchData" stringifyId emptyState "DataService" id 1000 1000
              (Resolves "v1")) as (_ & Hmiss & Hinv & Hoverlap).
  destruct Hmiss as (_ & Hstored & _); [left; reflexivity |].
  assert (Hlk : cache st1 !! cacheKey = Some (mkEntry "v1" (Some 6000))).
  { exact (Hstored "v1" eq_refl). }
  split; [exact Hlk |].
  destruct (C4_cache_hit_miss_invalidate string string (Some 5000) None
              "fetchData" stringifyId st1 "DataService" id 5999 5999
              (Resolves "v2")) as (Hhit & _ & _).
  destruct (C4_cache_hit_miss_invalidate string string (Some 5000) None
              "fetchData" stringifyId st1 "DataService" id 6000 6000
              (Resolves "v2")) as (_ & Hexpired & _).
  split; [| split; [| split]].
  - apply (Hhit _ Hlk). right. right. exists 6000. split; [reflexivity | lia].
  - apply Hexpired. right. exists (mkEntry "v1" (Some 6000)), 6000.
    split; [exact Hlk |]. split; [reflexivity |]. split; lia.
  - apply (Hinv [Do (mkCall "DataService" id 1000 (Resolves "v1") 1000)]
             emptyState
             (mkCall "DataService" id 1001 (Resolves "v2") 1001)).
    + apply Exists_cons_hd. reflexivity.
    + reflexivity.
  - intros first other again r.
    apply (Hoverlap [Begin first; Begin other; Settle 0%nat]
             (mkRunning emptyState []) again).
    + apply Exists_cons_hd. reflexivity.
    + reflexivity.
    + reflexivity.
Defined.

End CachedSpec.

(** ** Scheduling cleanup *)

Module SchedulingSpec.
Import Scheduling.

Lemma clearAll_spec (stop : nat -> effect) (m : option HandleMap) :
  snd (clearAll stop m) = map stop (handles m) /\
  handles (fst (clearAll stop m)) = [] /\
  clearAll stop (fst (clearAll stop m)) = (fst (clearAll stop m), []).
Proof. destruct m as [entries |]; simpl; repeat split. Qed.

Lemma cleanup_unfold (i : Instance) :
  cleanup i =
  ({| CRON_JOBS := fst (clearAll JobStop (CRON_JOBS i));
      INTERVALS := fst (clearAll ClearInterval (INTERVALS i));
      TIMEOUTS := fst (clearAll ClearTimeout (TIMEOUTS i)) |},
   snd (clearAll JobStop (CRON_JOBS i))
   ++ snd (clearAll ClearInterval (INTERVALS i))
   ++ snd (clearAll ClearTimeout (TIMEOUTS i))).
Proof.
  unfold cleanup.
  destruct (clearAll JobStop (CRON_JOBS i)),
           (clearAll ClearInterval (INTERVALS i)),
           (clearAll ClearTimeout (TIMEOUTS i)); reflexivity.
Qed.


(** [set] under a name the map does not hold appends an entry. *)
Lemma map_set_fresh (name : string) (h : nat) (m : HandleMap) :
  name ∉ map fst m -> map_set name h m = m ++ [(name, h)].
Proof.
  induction m as [| [name' h'] m IH]; intros Hfresh; [reflexivity |].
  simpl in *. destruct (String.eqb_spec name' name) as [-> | Hne].
  - exfalso. apply Hfresh, list_elem_of_here.
  - rewrite IH; [reflexivity |]. intros Hin.
    apply Hfresh, list_elem_of_further, Hin.
Qed.


Lemma map_set_names (name : string) (h : nat) (m : HandleMap) :
  forall n, n ∈ map fst (map_set name h m) <-> n = name \/ n ∈ map fst m.
Proof.
  induction m as [| [name' h'] m IH]; intros n; simpl.
  - rewrite list_elem_of_singleton, elem_of_nil. tauto.
  - destruct (String.eqb_spec name' name) as [-> | Hne]; simpl;
      rewrite !elem_of_cons; [tauto |]. rewrite IH. tauto.
Qed.

Lemma mapOf_register (k : Kind) (r : registration) (i : Instance) :
  mapOf k (register r i)
  = if decide (kind r = k)
    then Some (map_set (method r) (handle r) (default [] (mapOf k i)))
    else mapOf k i.
Proof.
  unfold register. destruct r as [kr name h]. simpl.
  destruct kr, k; simpl; try reflexivity.
Qed.

(** With names new to the map and distinct among themselves, the
    registrations of a decorator are appended to its map in order. *)
Lemma handles_registerAll (k : Kind) (log : list registration) :
  forall i : Instance,
    NoDup (map method (ofKind k log)) ->
    (forall r, r ∈ ofKind k log ->
               method r ∉ map fst (default [] (mapOf k i))) ->
    default [] (mapOf k (registerAll log i))
    = default [] (mapOf k i)
      ++ map (fun r => (method r, handle r)) (ofKind k log).
Proof.
  induction log as [| r log IH]; intros i Hnd Hfresh.
  - simpl. now rewrite app_nil_r.
  - cbn [registerAll fold_left]. fold (registerAll log (register r i)).
    unfold ofKind in *. rewrite filter_cons in *.
    destruct (decide (kind r = k)) as [Hk | Hk].
    + cbn [map] in Hnd. apply NoDup_cons in Hnd as [Hnew Hnd].
      rewrite IH; [| exact Hnd |].
      * rewrite mapOf_register, decide_True by exact Hk.
        change (default [] (Some ?m)) with m.
        rewrite map_set_fresh
          by (apply Hfresh, list_elem_of_here).
        cbn [map]. rewrite <- app_assoc. reflexivity.
      * intros r' Hr'. rewrite mapOf_register, decide_True by exact Hk.
        change (default [] (Some ?m)) with m.
        rewrite map_set_names. intros [Heq | Hin].
        -- apply Hnew. rewrite <- Heq. apply list_elem_of_fmap.
           exists r'. split; [reflexivity | exact Hr'].
        -- revert Hin. apply Hfresh, list_elem_of_further, Hr'.
    + rewrite IH; [| exact Hnd |].
      * now rewrite mapOf_register, decide_False by exact Hk.
      * intros r' Hr'. rewrite mapOf_register, decide_False by exact Hk.
        now apply Hfresh.
Qed.

Lemma NoDup_methods_ofKind (k : Kind) (log : list registration) :
  NoDup (map (fun r => (kind r, method r)) log) ->
  NoDup (map method (ofKind k log)).
Proof.
  induction log as [| r log IH]; intros Hnd; [constructor |].
  cbn [map] in Hnd. apply NoDup_cons in Hnd as [Hnew Hnd].
  unfold ofKind in *. rewrite filter_cons.
  destruct (decide (kind r = k)) as [Hk | Hk]; [| now apply IH].
  cbn [map]. apply NoDup_cons. split; [| now apply IH].
  intros Hin. apply Hnew.
  apply list_elem_of_fmap in Hin as (r' & Heq & Hr').
  apply list_elem_of_filter in Hr' as [Hk' Hr'].
  apply list_elem_of_fmap. exists r'. split; [| exact Hr'].
  now rewrite Heq, Hk, Hk'.
Qed.

Lemma stops_ofKind (k : Kind) (stop : nat -> effect)
    (log : list registration) :
  (forall r, kind r = k -> stopOf r = stop (handle r)) ->
  map stop (map snd (map (fun r => (method r, handle r)) (ofKind k log)))
  = map stopOf (ofKind k log).
Proof.
  intros Hstop. unfold ofKind.
  induction log as [| r log IH]; [reflexivity |].
  rewrite filter_cons. destruct (decide (kind r = k)) as [Hk | Hk];
    [| exact IH].
  cbn [map snd]. now rewrite IH, Hstop.
Qed.

Lemma length_by_kind (log : list registration) :
  (length (ofKind CronJob log) + length (ofKind IntervalTimer log)
   + length (ofKind TimeoutTimer log))%nat = length log.
Proof.
  unfold ofKind. induction log as [| r log IH]; [reflexivity |].
  rewrite !filter_cons. destruct r as [[] name h]; simpl in *; lia.
Qed.







(** The sample instance: four runtime calls, then none. *)
Example cleanup_sample :
  snd (cleanup scheduler)
    = [JobStop 1; ClearInterval 2; ClearInterval 3; ClearTimeout 4] /\
  snd (cleanup (fst (cleanup scheduler))) = [].
Proof. split; reflexivity. Qed.

End SchedulingSpec.

(** * Further properties of the decorators *)

(** ** Retry: first success, backoff schedule, bound on invocations *)

Module RetryMore.
Import Retry.

Section Facts.
Variable options : RetryOptions.
Context {V : Type}.
Variable target : Z -> outcome V.

Lemma invocations_failedRound (error : Error) (n : Z) (ev : list event) :
  invocations (failedRound options error n ++ ev) = S (invocations ev).
Proof. unfold failedRound, notify. now destruct (hasOnRetry options). Qed.

Lemma sleeps_failedRound (error : Error) (n : Z) (ev : list event) :
  sleeps (failedRound options error n ++ ev) = delay options n :: sleeps ev.
Proof. unfold failedRound, notify. now destruct (hasOnRetry options). Qed.

Lemma retryAttempts_failedRound (error : Error) (n : Z) (ev : list event) :
  retryAttempts (failedRound options error n ++ ev)
  = (if hasOnRetry options then [n] else []) ++ retryAttempts ev.
Proof. unfold failedRound, notify. now destruct (hasOnRetry options). Qed.

(** [j] failed attempts in a row, each of them retried. *)
Lemma failed_rounds (err : Z -> Error) (j : nat) :
  forall attempts : Z,
    (forall n, attempts < n <= attempts + Z.of_nat j ->
               awaited (target n) = inr (err n)) ->
    attempts + Z.of_nat j <= maxRetries options ->
    execute options target attempts =
    (fst (execute options target (attempts + Z.of_nat j)),
     flat_map (fun n => failedRound options (err n) n)
       (seqZ (attempts + 1) (Z.of_nat j))
     ++ snd (execute options target (attempts + Z.of_nat j))).
Proof.
  induction j as [| j IH]; intros attempts Hfail Hle.
  - replace (attempts + Z.of_nat 0) with attempts by lia. simpl.
    now destruct (execute options target attempts).
  - rewrite RetrySpec.execute_round, (Hfail (attempts + 1)) by lia.
    destruct (Z_le_dec (maxRetries options + 1) (attempts + 1)) as [| _];
      [lia |].
    rewrite (IH (attempts + 1)) by (try (intros n Hn; apply Hfail); lia).
    replace (attempts + 1 + Z.of_nat j) with (attempts + Z.of_nat (S j))
      by lia.
    rewrite (seqZ_cons (attempts + 1) (Z.of_nat (S j))) by lia.
    replace (Z.pred (Z.of_nat (S j))) with (Z.of_nat j) by lia.
    replace (Z.succ (attempts + 1)) with (attempts + 1 + 1) by lia.
    cbn [flat_map fst snd]. unfold failedRound.
    cbn [app]. rewrite <- !app_assoc. reflexivity.
Qed.

Lemma invocations_rounds (err : Z -> Error) (ns : list Z) (ev : list event) :
  invocations (flat_map (fun n => failedRound options (err n) n) ns ++ ev)
  = (length ns + invocations ev)%nat.
Proof.
  induction ns as [| n ns IH]; [reflexivity |]. cbn [flat_map].
  rewrite <- app_assoc, invocations_failedRound, IH. reflexivity.
Qed.

Lemma sleeps_rounds (err : Z -> Error) (ns : list Z) (ev : list event) :
  sleeps (flat_map (fun n => failedRound options (err n) n) ns ++ ev)
  = (delay options <$> ns) ++ sleeps ev.
Proof.
  induction ns as [| n ns IH]; [reflexivity |]. cbn [flat_map].
  rewrite <- app_assoc, sleeps_failedRound, IH. reflexivity.
Qed.

Lemma retryAttempts_rounds (err : Z -> Error) (ns : list Z)
    (ev : list event) :
  retryAttempts (flat_map (fun n => failedRound options (err n) n) ns ++ ev)
  = (if hasOnRetry options then ns else []) ++ retryAttempts ev.
Proof.
  induction ns as [| n ns IH]; [now destruct (hasOnRetry options) |].
  cbn [flat_map].
  rewrite <- app_assoc, retryAttempts_failedRound, IH.
  now destruct (hasOnRetry options).
Qed.

(** Whatever the target does, from any value of [attempts]: at least
    one invocation, at most [maxRetries + 1 - attempts] of them when
    that is more than one, and one wait before each invocation but the
    first. *)
Lemma invocations_bounded (m : nat) :
  forall attempts : Z,
    (Z.to_nat (maxRetries options + 1 - attempts) <= m)%nat ->
    1 <= Z.of_nat (invocations (snd (execute options target attempts)))
      <= Z.max 1 (maxRetries options + 1 - attempts) /\
    S (length (sleeps (snd (execute options target attempts))))
      = invocations (snd (execute options target attempts)).
Proof.
  assert (Hone : forall (r : settled V) (bound : Z),
             1 <= Z.of_nat (invocations (snd (r, [Invoke])))
               <= Z.max 1 bound /\
             S (length (sleeps (snd (r, [Invoke]))))
               = invocations (snd (r, [Invoke]))).
  { intros r bound. cbn [snd]. change (invocations [Invoke]) with 1%nat.
    split; [lia | reflexivity]. }
  induction m as [| m IH]; intros attempts Hm;
    rewrite RetrySpec.execute_round;
    (destruct (awaited (target (attempts + 1))) as [v | error];
     [apply Hone |]);
    (destruct (Z_le_dec (maxRetries options + 1) (attempts + 1))
       as [Hle | Hgt]; [apply Hone |]); [lia |].
  destruct (IH (attempts + 1)) as [Hinv Hsl]; [lia |].
  destruct (execute options target (attempts + 1)) as [r ev].
  cbn [snd] in *.
  assert (Heq : Invoke :: notify options error (attempts + 1)
                  ++ Sleep (delay options (attempts + 1)) :: ev
                = failedRound options error (attempts + 1) ++ ev).
  { unfold failedRound. cbn [app]. now rewrite <- app_assoc. }
  rewrite Heq, invocations_failedRound, sleeps_failedRound.
  cbn [length]. split; lia.
Qed.

End Facts.

(** X1. If the target fails at attempts 1 to k - 1 and succeeds at
    attempt k, with k at most [maxRetries + 1], the wrapper resolves
    with the value of attempt k. The trace is k - 1 failed rounds
    (invocation, callback if given, wait) and one last invocation: k
    invocations in all, and the callback sees the attempts 1 to
    k - 1. *)
Theorem X1_retry_first_success
  (options : RetryOptions) (V : Type) (target : Z -> outcome V)
  (err : Z -> Error) (k : Z) (v : V) :
  1 <= k <= maxRetries options + 1 ->
  (forall n, 1 <= n < k -> awaited (target n) = inr (err n)) ->
  awaited (target k) = inl v ->
  replacementMethod options target =
    (Fulfilled v,
     flat_map (fun n => failedRound options (err n) n) (seqZ 1 (k - 1))
     ++ [Invoke]) /\
  Z.of_nat (invocations (snd (replacementMethod options target))) = k /\
  retryAttempts (snd (replacementMethod options target))
    = if hasOnRetry options then seqZ 1 (k - 1) else [].
Proof.
  intros Hk Hfail Hok.
  assert (Hrun : replacementMethod options target =
                 (Fulfilled v,
                  flat_map (fun n => failedRound options (err n) n)
                    (seqZ 1 (k - 1)) ++ [Invoke])).
  { unfold replacementMethod.
    rewrite (failed_rounds options target err (Z.to_nat (k - 1)) 0)
      by (try (intros n Hn; apply Hfail); lia).
    replace (0 + Z.of_nat (Z.to_nat (k - 1))) with (k - 1) by lia.
    replace (Z.of_nat (Z.to_nat (k - 1))) with (k - 1) by lia.
    rewrite RetrySpec.execute_round.
    replace (k - 1 + 1) with k by lia. rewrite Hok. reflexivity. }
  rewrite Hrun. cbn [snd]. split; [reflexivity |].
  rewrite invocations_rounds, retryAttempts_rounds, length_seqZ.
  split.
  - change (invocations [Invoke]) with 1%nat. lia.
  - destruct (hasOnRetry options); [apply app_nil_r | reflexivity].
Qed.

Lemma X1_witness :
  replacementMethod demoOptions flaky =
  (Fulfilled "ok",
   [Invoke; OnRetry (mkError "fail 1") 1; Sleep 10;
    Invoke; OnRetry (mkError "fail 2") 2; Sleep 20;
    Invoke]).
Proof.
  destruct (X1_retry_first_success demoOptions string flaky failN 3 "ok")
    as (Hrun & _ & _).
  - vm_compute. split; discriminate.
  - intros n Hn. unfold flaky.
    destruct (Z.ltb_spec n 3); [reflexivity | lia].
  - reflexivity.
  - exact Hrun.
Defined.

(** X2. For a target that fails at every attempt, with
    [maxRetries = N >= 0], the wrapper waits N times, before the
    attempts 2 to N + 1: with the exponential strategy the n-th wait is
    [backoff * 2^(n-1)], with the fixed strategy every wait is
    [backoff]; [backoff] is 1000 when the option is not given. *)
Theorem X2_retry_backoff_schedule
  (options : RetryOptions) (V : Type) (target : Z -> outcome V)
  (err : Z -> Error) :
  0 <= maxRetries options ->
  (forall n, awaited (target n) = inr (err n)) ->
  sleeps (snd (replacementMethod options target))
  = (fun n => match strategy options with
              | exponential => default 1000 (backoff options) * 2 ^ (n - 1)
              | fixed => default 1000 (backoff options)
              end) <$> seqZ 1 (maxRetries options).
Proof.
  intros HN Hfail. unfold replacementMethod.
  rewrite (failed_rounds options target err
             (Z.to_nat (maxRetries options)) 0)
    by (try (intros n _; apply Hfail); lia).
  replace (0 + Z.of_nat (Z.to_nat (maxRetries options)))
    with (maxRetries options) by lia.
  replace (Z.of_nat (Z.to_nat (maxRetries options)))
    with (maxRetries options) by lia.
  rewrite RetrySpec.execute_round, Hfail.
  destruct (Z_le_dec (maxRetries options + 1) (maxRetries options + 1));
    [| lia].
  cbn [snd]. rewrite sleeps_rounds. simpl. rewrite app_nil_r. reflexivity.
Qed.

Lemma X2_witness :
  sleeps (snd (replacementMethod demoOptions alwaysFailing)) = [10; 20; 40].
Proof.
  rewrite (X2_retry_backoff_schedule demoOptions string alwaysFailing failN).
  - reflexivity.
  - vm_compute. discriminate.
  - intros n. reflexivity.
Defined.

(** X3. Whatever the target does, one call of the wrapper invokes it at
    least once and at most [max 1 (maxRetries + 1)] times, and waits
    exactly once before every invocation but the first. In particular
    a negative [maxRetries] gives one invocation and no retry. *)
Theorem X3_retry_invocations_bounded
  (options : RetryOptions) (V : Type) (target : Z -> outcome V) :
  let ev := snd (replacementMethod options target) in
  1 <= Z.of_nat (invocations ev) <= Z.max 1 (maxRetries options + 1) /\
  S (length (sleeps ev)) = invocations ev /\
  (maxRetries options < 0 -> invocations ev = 1%nat).
Proof.
  intros ev.
  destruct (invocations_bounded options target
              (Z.to_nat (maxRetries options + 1 - 0)) 0 (le_n _))
    as [Hinv Hsl].
  change (execute options target 0) with (replacementMethod options target)
    in Hinv, Hsl.
  fold ev in Hinv, Hsl.
  replace (maxRetries options + 1 - 0) with (maxRetries options + 1)
    in Hinv by lia.
  split; [exact Hinv |]. split; [exact Hsl |]. intros Hneg. lia.
Qed.

Lemma X3_witness :
  invocations
    (snd (replacementMethod
            {| maxRetries := -2; strategy := fixed; backoff := None;
               hasOnRetry := true |} alwaysFailing)) = 1%nat.
Proof.
  apply (X3_retry_invocations_bounded
           {| maxRetries := -2; strategy := fixed; backoff := None;
              hasOnRetry := true |} string alwaysFailing).
  reflexivity.
Defined.

End RetryMore.

(** ** CircuitBreaker: shape between calls, notifications, failed probe *)

Module CircuitBreakerMore.
Import CircuitBreaker.

Section Facts.
Variable options : Options.
Context {V : Type}.

(** What a call does to an open breaker whose reset timeout has
    elapsed, when the target fails and the count reaches the threshold. *)
Lemma probe_failure (k : call (V:=V)) (c : CircuitState) :
  state c = open ->
  resetTimeout options <= calledAt k - lastFailureTime c ->
  failureThreshold options <= failures c + 1 ->
  fails k = true ->
  exists e,
    awaited (does k) = inr e /\
    replacementMethod options k c =
      (Rejected e,
       {| failures := failures c + 1; state := open;
          lastFailureTime := settledAt k |},
       [StateChange half_open; Invoke; StateChange open]).
Proof.
  intros Hop Hel Hth Hf.
  destruct (CircuitBreakerSpec.fails_inv k Hf) as [e He]. exists e.
  assert (Hleb1 : (resetTimeout options <=? calledAt k - lastFailureTime c)
                  = true) by now apply Z.leb_le.
  assert (Hleb2 : (failureThreshold options <=? failures c + 1) = true)
    by now apply Z.leb_le.
  destruct He as [He | He]; rewrite He; (split; [reflexivity |]);
    unfold replacementMethod, gate, settle, handleFailure, updateState;
    rewrite He, Hop, Hleb1; cbn; rewrite Hleb2; reflexivity.
Qed.

(** What a call does to an open breaker whose reset timeout has
    elapsed, when the target succeeds. *)
Lemma probe_success (k : call (V:=V)) (c : CircuitState) :
  state c = open ->
  resetTimeout options <= calledAt k - lastFailureTime c ->
  succeeds (does k) = true ->
  after options k c =
    {| failures := 0; state := closed; lastFailureTime := lastFailureTime c |}.
Proof.
  intros Hop Hel Hs.
  assert (Hleb1 : (resetTimeout options <=? calledAt k - lastFailureTime c)
                  = true) by now apply Z.leb_le.
  destruct (CircuitBreakerSpec.succeeds_inv _ Hs) as [v [Hv | Hv]];
    unfold after, replacementMethod, gate, settle, handleSuccess, updateState;
    rewrite Hv, Hop, Hleb1; reflexivity.
Qed.

(** A call turned away by the open breaker changes nothing. *)
Lemma short_circuit (k : call (V:=V)) (c : CircuitState) :
  state c = open ->
  calledAt k - lastFailureTime c < resetTimeout options ->
  replacementMethod options k c
  = (Rejected (mkError "Circuit breaker is open"), c, []).
Proof.
  intros Hop Hlt. unfold replacementMethod, gate. rewrite Hop.
  destruct (Z.leb_spec (resetTimeout options)
              (calledAt k - lastFailureTime c)); [lia | reflexivity].
Qed.

Lemma betweenCalls_after (k : call (V:=V)) (c : CircuitState) :
  1 <= failureThreshold options ->
  betweenCalls options c -> betweenCalls options (after options k c).
Proof.
  intros HT [[Hst Hf] | [Hst Hf]].
  - destruct (fails k) eqn:Hk.
    + rewrite (CircuitBreakerSpec.closed_failure options k c Hst Hk).
      destruct (Z.leb_spec (failureThreshold options) (failures c + 1));
        [right | left]; simpl; split; (reflexivity || lia).
    + assert (Hs : succeeds (does k) = true).
      { unfold fails in Hk. now destruct (succeeds (does k)). }
      destruct (CircuitBreakerSpec.closed_success options k c Hst Hs)
        as [v Hv].
      unfold after. rewrite Hv. left. split; assumption.
  - destruct (Z.lt_ge_cases (calledAt k - lastFailureTime c)
                (resetTimeout options)) as [Hlt | Hge].
    + unfold after. rewrite (short_circuit k c Hst Hlt). right.
      split; assumption.
    + destruct (fails k) eqn:Hk.
      * destruct (probe_failure k c Hst Hge ltac:(lia) Hk) as (e & _ & Hr).
        unfold after. rewrite Hr. right. simpl. split; [reflexivity | lia].
      * assert (Hs : succeeds (does k) = true).
        { unfold fails in Hk. now destruct (succeeds (does k)). }
        rewrite (probe_success k c Hst Hge Hs). left. simpl.
        split; [reflexivity | lia].
Qed.

Lemma betweenCalls_run (ks : list (call (V:=V))) (c : CircuitState) :
  1 <= failureThreshold options ->
  betweenCalls options c -> betweenCalls options (run options ks c).
Proof.
  intros HT. revert c. induction ks as [| k ks IH]; intros c Hc; [exact Hc |].
  simpl. apply IH, betweenCalls_after; assumption.
Qed.

Lemma betweenCalls_fresh :
  1 <= failureThreshold options -> betweenCalls options circuitState0.
Proof. intros HT. left. simpl. split; [reflexivity | lia]. Qed.

End Facts.

(** X4. With a threshold of at least 1, after any sequence of calls
    that each run to completion a breaker that started fresh is either
    closed with fewer failures counted than the threshold, or open with
    at least as many; it is never left half-open, and the count is
    never negative. *)
Theorem X4_breaker_shape_between_calls
  (options : Options) (V : Type) (ks : list (call (V:=V))) :
  1 <= failureThreshold options ->
  let c := run options ks circuitState0 in
  state c <> half_open /\
  0 <= failures c /\
  (state c = closed <-> failures c < failureThreshold options) /\
  (state c = open <-> failureThreshold options <= failures c).
Proof.
  intros HT c. subst c.
  destruct (betweenCalls_run options ks circuitState0 HT
              (betweenCalls_fresh options HT)) as [[Hst Hf] | [Hst Hf]];
    rewrite Hst.
  - split; [discriminate |]. split; [lia |]. split; split; intros; try lia;
      try reflexivity; discriminate.
  - split; [discriminate |]. split; [lia |]. split; split; intros; try lia;
      try reflexivity; discriminate.
Qed.

Lemma X4_witness :
  let c := run demoOptions [boom 0; fine 5; boom 10; boom 20; fine 30]
             circuitState0 in
  state c = open /\ 3 <= failures c.
Proof.
  intros c. subst c.
  destruct (X4_breaker_shape_between_calls demoOptions string
              [boom 0; fine 5; boom 10; boom 20; fine 30])
    as (_ & _ & _ & Hopen); [vm_compute; discriminate |].
  split; [reflexivity |]. apply Hopen. reflexivity.
Defined.


(** X6. With a threshold of at least 1, when a breaker that started
    fresh is open and a call arrives after the reset timeout, a failure
    of the target sends it back to open: the target was invoked once,
    its own error is what the caller gets, the failure is counted, and
    the reset timeout runs anew from the time of this failure, so that
    a call made less than [resetTimeout] later is turned away without
    invoking the target. *)
Theorem X6_failed_probe_reopens
  (options : Options) (V : Type) (ks : list (call (V:=V)))
  (k next : call (V:=V)) :
  1 <= failureThreshold options ->
  let c := run options ks circuitState0 in
  state c = open ->
  resetTimeout options <= calledAt k - lastFailureTime c ->
  fails k = true ->
  calledAt next - settledAt k < resetTimeout options ->
  exists e,
    awaited (does k) = inr e /\
    replacementMethod options k c =
      (Rejected e,
       {| failures := failures c + 1; state := open;
          lastFailureTime := settledAt k |},
       [StateChange half_open; Invoke; StateChange open]) /\
    replacementMethod options next (after options k c) =
      (Rejected (mkError "Circuit breaker is open"), after options k c, []).
Proof.
  intros HT c Hop Hel Hf Hnext.
  assert (Hth : failureThreshold options <= failures c + 1).
  { subst c.
    destruct (betweenCalls_run options ks circuitState0 HT
                (betweenCalls_fresh options HT)) as [[Hst _] | [_ Hge]];
      [congruence | lia]. }
  destruct (probe_failure options k c Hop Hel Hth Hf) as (e & He & Hr).
  exists e. split; [exact He |]. split; [exact Hr |].
  unfold after. rewrite Hr. cbn [fst snd].
  apply short_circuit; [reflexivity | exact Hnext].
Qed.

Lemma X6_witness :
  let c := run demoOptions [boom 0; boom 10; boom 20] circuitState0 in
  replacementMethod demoOptions (boom 2000) c =
    (Rejected (mkError "boom"), mkCircuit 4 open 2001,
     [StateChange half_open; Invoke; StateChange open]) /\
  replacementMethod demoOptions (fine 2500) (after demoOptions (boom 2000) c)
    = (Rejected (mkError "Circuit breaker is open"),
       after demoOptions (boom 2000) c, []).
Proof.
  intros c.
  destruct (X6_failed_probe_reopens demoOptions string
              [boom 0; boom 10; boom 20] (boom 2000) (fine 2500))
    as (e & He & Hr & Hnext).
  - vm_compute. discriminate.
  - reflexivity.
  - vm_compute. discriminate.
  - reflexivity.
  - vm_compute. reflexivity.
  - injection He as <-. split; [exact Hr | exact Hnext].
Defined.

End CircuitBreakerMore.

(** ** RateLimited: budgets per class name, non-positive limits, retry-after *)

Module RateLimitedMore.
Import RateLimited.

Section Facts.
Variable limit window : Z.
Variable methodName : string.
Context {V : Type}.

Lemma keyOf_differs (instanceId1 instanceId2 : string) :
  instanceId1 <> instanceId2 ->
  keyOf methodName instanceId1 <> keyOf methodName instanceId2.
Proof.
  intros Hne Heq. apply Hne. unfold keyOf in Heq.
  exact (DebounceSpec.append_cancel_r _ _ _ Heq).
Qed.

(** The verdict of the wrapper depends on the record of its key only. *)
Lemma verdict_by_record instanceId now (does : outcome V)
    (st st' : gmap string (list Z)) :
  st !! keyOf methodName instanceId = st' !! keyOf methodName instanceId ->
  fst (replacementMethod limit window methodName instanceId now does st)
  = fst (replacementMethod limit window methodName instanceId now does st').
Proof.
  intros Heq. unfold replacementMethod. rewrite Heq.
  now destruct (limit <=? _).
Qed.

(** With a limit of 0 or less nothing is ever recorded. *)
Lemma nothing_recorded (st : gmap string (list Z)) :
  limit <= 0 -> reachable limit window methodName (V:=V) st -> st = ∅.
Proof.
  intros Hl. induction 1 as [| instanceId now does st Hst IH];
    [reflexivity |].
  rewrite IH, RateLimitedSpec.over_limit; [reflexivity |].
  rewrite lookup_empty. simpl. lia.
Qed.

End Facts.

(** X7. The budget is kept per class name: a call on an instance of one
    class leaves the record of every class with another name as it
    was, and does not change what the wrapper answers to a call on an
    instance of such a class. *)
Theorem X7_rate_limit_budget_per_class_name
  (limit window : Z) (methodName : string) (V : Type)
  (instanceId1 instanceId2 : string) (now1 now2 : Z)
  (does1 does2 : outcome V) (st : gmap string (list Z)) :
  instanceId1 <> instanceId2 ->
  let st1 := snd (replacementMethod limit window methodName instanceId1 now1
                    does1 st) in
  st1 !! keyOf methodName instanceId2 = st !! keyOf methodName instanceId2 /\
  fst (replacementMethod limit window methodName instanceId2 now2 does2 st1)
  = fst (replacementMethod limit window methodName instanceId2 now2 does2 st).
Proof.
  intros Hne st1.
  assert (Hrec : st1 !! keyOf methodName instanceId2
                 = st !! keyOf methodName instanceId2).
  { subst st1. unfold replacementMethod.
    destruct (limit <=? _); simpl; [reflexivity |].
    apply lookup_insert_ne, keyOf_differs, Hne. }
  split; [exact Hrec |]. now apply verdict_by_record.
Qed.

Lemma X7_witness :
  afterTwoCalls !! keyOf "method" "Other"
    = snd (testCall 0 ∅) !! keyOf "method" "Other" /\
  fst (replacementMethod 2 100 "method" "Other" 20 (Returns "result")
         afterTwoCalls)
  = fst (replacementMethod 2 100 "method" "Other" 20 (Returns "result")
           (snd (testCall 0 ∅))).
Proof.
  apply (X7_rate_limit_budget_per_class_name 2 100 "method" string
           "Test" "Other" 10 20 (Returns "result") (Returns "result")
           (snd (testCall 0 ∅))).
  discriminate.
Defined.

(** X8. With a limit of 0 or less every call is turned away, the target
    is never invoked and nothing is recorded; as there is no oldest
    request, [Math.min()] is [Infinity] and the message reads
    'Rate limit exceeded for <methodName>. Try again in Infinity
    seconds.'. *)
Theorem X8_rate_limit_non_positive_limit
  (limit window : Z) (methodName : string) (V : Type)
  (instanceId : string) (now : Z) (does : outcome V)
  (st : gmap string (list Z)) :
  limit <= 0 ->
  reachable limit window methodName (V:=V) st ->
  st = ∅ /\
  replacementMethod limit window methodName instanceId now does st =
    (Throw (mkError ("Rate limit exceeded for " +:+ methodName +:+ ". "
                       +:+ "Try again in Infinity seconds.")), ∅).
Proof.
  intros Hl Hst.
  assert (Hempty : st = ∅)
    by exact (nothing_recorded limit window methodName st Hl Hst).
  split; [exact Hempty |]. subst st.
  rewrite RateLimitedSpec.over_limit; [reflexivity |].
  rewrite lookup_empty. simpl. lia.
Qed.

Lemma X8_witness :
  replacementMethod 0 100 "method" "Test" 5 (Returns "result") ∅ =
  (Throw (mkError
            "Rate limit exceeded for method. Try again in Infinity seconds."),
   ∅).
Proof.
  destruct (X8_rate_limit_non_positive_limit 0 100 "method" string "Test" 5
              (Returns "result") ∅) as [_ Hr].
  - lia.
  - apply reachable_init.
  - exact Hr.
Defined.



End RateLimitedMore.

(** ** Cached: the invalidation method *)

Module CachedMore.
Import Cached.

(** X10. The invalidation method removes from the cache exactly the
    keys registered with its method: entries under other keys (those of
    other cached methods, which share the module-level cache) are kept
    as they are. It leaves the method with no registered key, so that
    calling it a second time changes nothing. *)
Theorem X10_invalidate_scope_and_idempotence
  (V : Type) (st : State V) :
  (forall k, k ∈ methodCacheKeys st -> cache (invalidate st) !! k = None) /\
  (forall k, k ∉ methodCacheKeys st ->
             cache (invalidate st) !! k = cache st !! k) /\
  methodCacheKeys (invalidate st) = ∅ /\
  invalidate (invalidate st) = invalidate st.
Proof.
  split; [| split; [| split]].
  - intros k Hin. now apply CachedSpec.invalidate_lookup.
  - intros k Hnin. unfold invalidate. simpl.
    rewrite CachedSpec.lookup_foldr_delete.
    destruct (decide (k ∈ elements (methodCacheKeys st))) as [Hin |];
      [| reflexivity].
    exfalso. apply Hnin. now apply elem_of_elements.
  - reflexivity.
  - unfold invalidate. simpl. rewrite elements_empty. reflexivity.
Qed.

Lemma X10_witness :
  let st1 := snd (fetchData (Some 5000) "42" 1000 "v1"
                    (mkState {["other:key" := mkEntry "kept" None]} ∅)) in
  cache (invalidate st1) !! "other:key" = Some (mkEntry "kept" None) /\
  cache (invalidate st1)
    !! cacheKeyOf None "fetchData" stringifyId "DataService" "42" = None.
Proof.
  intros st1.
  destruct (X10_invalidate_scope_and_idempotence string st1)
    as (Hgone & Hkept & _ & _).
  split.
  - rewrite Hkept; [reflexivity |]. vm_compute. set_solver.
  - apply Hgone. vm_compute. set_solver.
Defined.

Section Reads.
Context {V Args : Type}.
Variable expiryTime : option Z.
Variable key : option (Args -> string).
Variable methodName : string.
Variable JSON_stringify : Args -> string.

(** A call served from the cache leaves the cache as it was. *)
Lemma hit_keeps_cache (k : call (V:=V) (Args:=Args)) (st : State V)
    (cached : CacheEntry V) :
  cache st !! cacheKeyOf key methodName JSON_stringify (className k) (args k)
    = Some cached ->
  unexpired cached (calledAt k) = true ->
  cache (after expiryTime key methodName JSON_stringify k st) = cache st.
Proof.
  intros Hlk Hu. unfold after, replacementMethod. now rewrite Hlk, Hu.
Qed.

Lemma reads_keep_cache (reads : list (call (V:=V) (Args:=Args)))
    (cacheKey : string) (v : V) (expires : Z) :
  forall st : State V,
    cache st !! cacheKey = Some (mkEntry v (Some expires)) ->
    Forall (fun k => cacheKeyOf key methodName JSON_stringify (className k)
                       (args k) = cacheKey /\ calledAt k < expires) reads ->
    cache (fold_left
             (fun st k => after expiryTime key methodName JSON_stringify k st)
             reads st) = cache st.
Proof.
  induction reads as [| k reads IH]; intros st Hlk Hall; [reflexivity |].
  inversion Hall as [| k' reads' [Hkey Hbefore] Hrest]; subst.
  cbn [fold_left].
  assert (Hkeep : cache (after expiryTime key methodName JSON_stringify k st)
                  = cache st).
  { apply (hit_keeps_cache k st (mkEntry v (Some expires)) Hlk).
    apply CachedSpec.unexpired_iff. right. right. exists expires.
    split; [reflexivity | exact Hbefore]. }
  rewrite IH; [exact Hkeep | now rewrite Hkeep | exact Hrest].
Qed.

End Reads.

(** X21. Reading does not refresh an entry. Let the cache hold a value
    under a key with a non-zero expiry. After any number of calls with
    that key made before the expiry, all served from the cache, the
    cache is as it was: a further call before the expiry still gets
    the stored value without the target being invoked, and the first
    call at or after the expiry invokes the target. *)
Theorem X21_cache_reads_do_not_extend_expiry
  (V Args : Type) (expiryTime : option Z) (key : option (Args -> string))
  (methodName : string) (JSON_stringify : Args -> string)
  (st : State V) (cacheKey : string) (v : V) (expires : Z)
  (reads : list (call (V:=V) (Args:=Args))) (next : call) :
  expires <> 0 ->
  cache st !! cacheKey = Some (mkEntry v (Some expires)) ->
  Forall (fun k => cacheKeyOf key methodName JSON_stringify (className k)
                     (args k) = cacheKey /\ calledAt k < expires) reads ->
  cacheKeyOf key methodName JSON_stringify (className next) (args next)
    = cacheKey ->
  let st' := fold_left
               (fun st k => after expiryTime key methodName JSON_stringify k st)
               reads st in
  let r := replacementMethod expiryTime key methodName JSON_stringify
             (className next) (args next) (calledAt next) (does next)
             (storedAt next) st' in
  cache st' = cache st /\
  (calledAt next < expires -> fst r = FromCache v) /\
  (expires <= calledAt next -> fst r = Computed (does next)).
Proof.
  intros Hnz Hlk Hreads Hkey st' r.
  assert (Hkeep : cache st' = cache st)
    by (subst st'; now apply (reads_keep_cache expiryTime key methodName
                               JSON_stringify reads cacheKey v expires)).
  split; [exact Hkeep |].
  subst r. unfold replacementMethod. rewrite Hkey, Hkeep, Hlk.
  unfold unexpired, truthy. cbn [expiry value].
  destruct (Z.eqb_spec expires 0) as [| _]; [contradiction |]. cbn.
  split; intros Ht.
  - destruct (Z.ltb_spec (calledAt next) expires); [reflexivity | lia].
  - destruct (Z.ltb_spec (calledAt next) expires); [lia | reflexivity].
Qed.

Lemma X21_witness :
  let st1 := snd (fetchData (Some 5000) "42" 1000 "v1" emptyState) in
  let read t := mkCall "DataService" "42" t (Resolves "vX") t in
  let st' := fold_left
               (fun st k => after (Some 5000) None "fetchData" stringifyId k st)
               [read 2000; read 5900] st1 in
  fst (fetchData (Some 5000) "42" 5999 "v2" st') = FromCache "v1" /\
  fst (fetchData (Some 5000) "42" 6000 "v2" st') = Computed (Resolves "v2").
Proof.
  intros st1 read st'.
  pose proof (fun next Hkey =>
    X21_cache_reads_do_not_extend_expiry string string (Some 5000) None
      "fetchData" stringifyId st1
      (cacheKeyOf None "fetchData" stringifyId "DataService" "42")
      "v1" 6000 [read 2000; read 5900] next
      ltac:(discriminate) eq_refl
      ltac:(repeat constructor; (reflexivity || (simpl; lia))) Hkey) as Hx.
  split.
  - apply (Hx (mkCall "DataService" "42" 5999 (Resolves "v2") 5999) eq_refl).
    simpl. lia.
  - apply (Hx (mkCall "DataService" "42" 6000 (Resolves "v2") 6000) eq_refl).
    simpl. lia.
Defined.

End CachedMore.

(** ** Memoize *)

Module MemoizeMore.
Import Memoize.

Section Facts.
Context {V Args : Type}.
Variable methodName : string.
Variable JSON_stringify : Args -> string.

(** A call followed to its settlement before anything else happens is
    [start] with the store done at once. *)
Lemma replacementMethod_start (args : Args) (does : outcome V)
    (memoized : gmap string V) :
  replacementMethod methodName JSON_stringify args does memoized
  = let '(r, m, later) := start methodName JSON_stringify args does memoized in
    (r, match later with
        | Some (key, v) => <[key := v]> m
        | None => m
        end).
Proof.
  unfold replacementMethod, start.
  destruct (memoized !! keyOf methodName JSON_stringify args);
    [reflexivity |].
  now destruct does.
Qed.

Lemma noneInFlight_lookup (key : string) (r : Running (V:=V)) (n : nat)
    (key' : string) (v : V) :
  noneInFlight key r = true -> inFlight r !! n = Some (key', v) ->
  key' <> key.
Proof.
  unfold noneInFlight. generalize (inFlight r). intros l. revert n.
  induction l as [| [k w] l IH]; intros n Hall Hn; [discriminate |].
  cbn in Hall. apply andb_prop in Hall as [Hk Hall].
  destruct n as [| n]; [| exact (IH n Hall Hn)].
  injection Hn as -> ->.
  destruct (String.eqb_spec key' key); [discriminate | assumption].
Qed.

Lemma noneInFlight_delete (key : string) (m : gmap string V)
    (l : list (string * V)) (n : nat) (m' : gmap string V) :
  noneInFlight key (mkRunning m l) = true ->
  noneInFlight key (mkRunning m' (delete n l)) = true.
Proof.
  unfold noneInFlight. cbn [inFlight]. revert n.
  induction l as [| p l IH]; intros n Hall; [now destruct n |].
  cbn in Hall. apply andb_prop in Hall as [Hp Hall].
  destruct n as [| n]; [exact Hall |].
  cbn. rewrite Hp. exact (IH n Hall).
Qed.

(** A stored value with no store pending for its key survives every
    step, and no step puts a store for the key in flight. *)
Lemma final_step (key : string) (v : V) (r : Running) (ev : event) :
  memo r !! key = Some v -> noneInFlight key r = true ->
  memo (step methodName JSON_stringify r ev) !! key = Some v /\
  noneInFlight key (step methodName JSON_stringify r ev) = true.
Proof.
  intros Hv Hnone. destruct ev as [args does | n]; cbn [step].
  - unfold start.
    destruct (decide (keyOf methodName JSON_stringify args = key))
      as [Hk | Hk].
    + rewrite Hk, Hv. cbn. rewrite app_nil_r. split; assumption.
    + assert (Hadd : forall w,
                 noneInFlight key
                   (mkRunning (memo r)
                      (inFlight r
                       ++ [(keyOf methodName JSON_stringify args, w)]))
                 = true).
      { intros w. unfold noneInFlight in *. cbn [inFlight].
        rewrite forallb_app, Hnone. cbn.
        destruct (String.eqb_spec (keyOf methodName JSON_stringify args) key);
          [contradiction | reflexivity]. }
      destruct (memo r !! keyOf methodName JSON_stringify args);
        [| destruct does]; cbn [memo option_list];
        rewrite ?app_nil_r, ?lookup_insert_ne by exact Hk;
        (split; [exact Hv |]); try exact Hnone; apply Hadd.
  - destruct (inFlight r !! n) as [[key' w] |] eqn:Hn; [| now split].
    pose proof (noneInFlight_lookup key r n key' w Hnone Hn) as Hne.
    cbn [memo]. rewrite lookup_insert_ne by exact Hne.
    split; [exact Hv |].
    destruct r as [m l]. now apply (noneInFlight_delete key m).
Qed.

Lemma final_interleave (key : string) (v : V) (evs : list event) :
  forall r : Running,
    memo r !! key = Some v -> noneInFlight key r = true ->
    memo (interleave methodName JSON_stringify evs r) !! key = Some v /\
    noneInFlight key (interleave methodName JSON_stringify evs r) = true.
Proof.
  induction evs as [| ev evs IH]; intros r Hv Hnone; [now split |].
  destruct (final_step key v r ev Hv Hnone) as [Hv' Hnone'].
  exact (IH _ Hv' Hnone').
Qed.

End Facts.

(** X11. A memoized value is final once no call for its key is in
    flight: whatever calls begin and whatever promises settle
    afterwards, in any order, the value stays, no store for the key
    comes into flight, and every call whose arguments have the same
    JSON text gets the value without the target being invoked, on
    whatever receiver it is made. Two calls that both miss, the second
    beginning before the promise of the first is fulfilled, both
    invoke the target, and the promise fulfilled last decides what is
    stored. A call whose target fails stores nothing and puts nothing
    in flight, so the next call with these arguments invokes the
    target again. *)
Theorem X11_memoized_value_final_once_settled
  (V Args : Type) (methodName : string) (JSON_stringify : Args -> string)
  (r : Running) (args : Args) :
  let key := keyOf methodName JSON_stringify args in
  (forall (v : V) (evs : list event) (args' : Args) (does' : outcome V),
      memo r !! key = Some v ->
      noneInFlight key r = true ->
      JSON_stringify args' = JSON_stringify args ->
      let r' := interleave methodName JSON_stringify evs r in
      memo r' !! key = Some v /\
      noneInFlight key r' = true /\
      start methodName JSON_stringify args' does' (memo r')
      = (FromMemo v, memo r', None)) /\
  (forall v1 v2 : V,
      memo r !! key = None ->
      inFlight r = [] ->
      let both := [Begin args (Resolves v1); Begin args (Resolves v2)] in
      inFlight (interleave methodName JSON_stringify both r)
      = [(key, v1); (key, v2)] /\
      memo (interleave methodName JSON_stringify
              (both ++ [Settle 0%nat; Settle 0%nat]) r) !! key = Some v2 /\
      memo (interleave methodName JSON_stringify
              (both ++ [Settle 1%nat; Settle 0%nat]) r) !! key = Some v1) /\
  (forall (does : outcome V) (e : Error),
      memo r !! key = None ->
      awaited does = inr e ->
      start methodName JSON_stringify args does (memo r)
      = (Computed does, memo r, None)).
Proof.
  intros key. split; [| split].
  - intros v evs args' does' Hv Hnone Hjson r'.
    destruct (final_interleave methodName JSON_stringify key v evs r Hv Hnone)
      as [Hv' Hnone'].
    fold r' in Hv', Hnone'.
    split; [exact Hv' |]. split; [exact Hnone' |].
    unfold start.
    assert (Hkey : keyOf methodName JSON_stringify args' = key)
      by (subst key; unfold keyOf; now rewrite Hjson).
    now rewrite Hkey, Hv'.
  - intros v1 v2 Hmiss Hempty both. subst both.
    destruct r as [m l]. cbn [memo inFlight] in Hmiss, Hempty. subst l.
    unfold interleave. cbn [fold_left app step memo inFlight].
    unfold start. fold key. rewrite Hmiss.
    cbn [memo inFlight option_list app]. rewrite Hmiss.
    cbn [memo inFlight option_list app lookup list_lookup delete list_delete].
    split; [reflexivity |]. split; apply lookup_insert_eq.
  - intros does e Hmiss He. unfold start. fold key. rewrite Hmiss.
    destruct does; simpl in He; try discriminate; reflexivity.
Qed.

Lemma X11_witness :
  let settledOnce :=
    interleave "square" stringifyN [Begin 4 (Resolves 16); Settle 0%nat]
      (mkRunning ∅ []) in
  let later :=
    interleave "square" stringifyN
      [Begin 5 (Resolves 25); Begin 4 (Returns 0); Settle 0%nat] settledOnce in
  start "square" stringifyN 4 (Returns 99) (memo later)
  = (FromMemo 16, memo later, None).
Proof.
  intros settledOnce later.
  destruct (X11_memoized_value_final_once_settled Z Z "square" stringifyN
              settledOnce 4) as (Hfinal & _ & _).
  destruct (Hfinal 16 [Begin 5 (Resolves 25); Begin 4 (Returns 0);
                       Settle 0%nat] 4 (Returns 99))
    as (_ & _ & Hhit); [reflexivity | reflexivity | reflexivity |].
  exact Hhit.
Defined.

End MemoizeMore.

(** ** Fallback, alone and with Retry *)

Module FallbackMore.
Import Fallback.

(** The fallback is called exactly when the target fails; a target
    that succeeds gives the wrapper's result as it is; otherwise the
    result is what the fallback gives, the target's error being
    dropped. *)
Lemma fallback_replaces_failure
  (V : Type) (does fallback : outcome V) :
  let r := replacementMethod does fallback in
  snd r = negb (succeeds does) /\
  awaited (fst r) = match awaited does with
                    | inl v => inl v
                    | inr _ => awaited fallback
                    end /\
  (succeeds does = true -> fst r = does) /\
  isPromise (fst r)
  = isPromise does || (negb (succeeds does) && isPromise fallback).
Proof.
  destruct does, fallback; cbn;
    (split; [reflexivity |]); (split; [reflexivity |]);
    (split; [| reflexivity]); intros Hs; (reflexivity || discriminate).
Qed.

(** X12. Order of [@Fallback] and [@Retry]. With the fallback outermost
    and a target that fails at every attempt ([maxRetries = N >= 0]),
    the target is invoked N + 1 times, then the fallback once, and the
    whole resolves or rejects as the fallback does. With the retrying
    wrapper outermost and a fallback that succeeds at the first
    attempt, the method is invoked once and nothing is retried, the
    failure of the target never reaching the retrying wrapper. *)
Theorem X12_fallback_and_retry
  (V : Type) (options : Retry.RetryOptions) (target : Z -> outcome V)
  (err : Z -> Error) :
  0 <= Retry.maxRetries options ->
  (forall n, awaited (target n) = inr (err n)) ->
  (forall fallback : outcome V,
      let '(o, ev, used) := fallbackOverRetry options target fallback in
      used = true /\
      awaited o = awaited fallback /\
      Z.of_nat (Retry.invocations ev) = Retry.maxRetries options + 1) /\
  (forall (fallback : Z -> outcome V) (v : V),
      awaited (fallback 1) = inl v ->
      retryOverFallback options target fallback
      = (Fulfilled v, [Retry.Invoke])).
Proof.
  intros HN Hfail. split.
  - intros fallback. unfold fallbackOverRetry.
    pose proof (RetryMore.failed_rounds options target err
                  (Z.to_nat (Retry.maxRetries options)) 0) as Hrun.
    unfold Retry.replacementMethod.
    rewrite Hrun by (try (intros n _; apply Hfail); lia). clear Hrun.
    replace (0 + Z.of_nat (Z.to_nat (Retry.maxRetries options)))
      with (Retry.maxRetries options) by lia.
    rewrite RetrySpec.execute_round, Hfail.
    destruct (Z_le_dec (Retry.maxRetries options + 1)
                (Retry.maxRetries options + 1)); [| lia].
    cbn [fst snd promised replacementMethod].
    split; [reflexivity |]. split; [now destruct fallback |].
    rewrite RetryMore.invocations_rounds, length_seqZ.
    change (Retry.invocations [Retry.Invoke]) with 1%nat. lia.
  - intros fallback v Hv. unfold retryOverFallback, Retry.replacementMethod.
    rewrite RetrySpec.execute_round.
    assert (Hone : awaited (fst (replacementMethod (target (0 + 1))
                                   (fallback (0 + 1)))) = inl v).
    { specialize (Hfail (0 + 1)). change (0 + 1) with 1 in *.
      destruct (target 1), (fallback 1); simpl in *; congruence. }
    now rewrite Hone.
Qed.

Lemma X12_witness :
  fallbackOverRetry Retry.demoOptions Retry.alwaysFailing (Returns "cached")
  = (Resolves "cached",
     snd (Retry.replacementMethod Retry.demoOptions Retry.alwaysFailing),
     true) /\
  retryOverFallback Retry.demoOptions Retry.alwaysFailing
    (fun _ => Returns "cached")
  = (Fulfilled "cached", [Retry.Invoke]).
Proof.
  destruct (X12_fallback_and_retry string Retry.demoOptions
              Retry.alwaysFailing Retry.failN) as [_ Hinner].
  - vm_compute. discriminate.
  - intros n. reflexivity.
  - split; [vm_compute; reflexivity |].
    exact (Hinner (fun _ => Returns "cached") "cached" eq_refl).
Defined.

End FallbackMore.

(** ** ThrottleSync and ThrottleAsync *)

Module ThrottleMore.
Import Throttle.

(** X13. Under [ThrottleSync], the invocations of the target for one
    key are at least [interval] apart, whatever calls are made and
    whatever other keys are called in between; the first of them is at
    least [interval] after the recorded last call, which counts as
    time 0 when the key has no record: on a fresh map a call made
    before time [interval] is dropped. *)
Theorem X13_throttle_sync_spacing
  (interval : Z) (methodName : string) (V : Type) (key : string)
  (calls : list (call (V:=V))) (lastCalls : gmap string Z) :
  spaced interval (default 0 (lastCalls !! key))
    (executedSync interval methodName key calls lastCalls).
Proof.
  revert lastCalls. induction calls as [| k rest IH]; intros lastCalls;
    [exact I |].
  cbn [executedSync]. unfold replacementMethodSync.
  destruct (Z.leb_spec interval
              (calledAt k
               - default 0 (lastCalls !! keyOf methodName (className k))))
    as [Hgo | Hdrop]; [| apply IH].
  specialize (IH (<[keyOf methodName (className k) := calledAt k]> lastCalls)).
  destruct (decide (keyOf methodName (className k) = key)) as [Heq | Hne].
  - rewrite Heq in *. rewrite lookup_insert_eq in IH. simpl in IH.
    split; [exact Hgo | exact IH].
  - rewrite lookup_insert_ne in IH by exact Hne. exact IH.
Qed.

(** X14. Inside the window. After a call at [t1] that is let through,
    a call for the same key at [t2], less than [interval] later, does
    not invoke the target under [ThrottleSync] and returns [undefined],
    even when the first invocation threw: the time is recorded before
    the target runs. Under [ThrottleAsync] the second call returns the
    very result of the first invocation when that was a promise or a
    truthy value; when the first invocation threw, nothing was
    recorded and the second call invokes the target again. *)
Theorem X14_throttle_inside_the_window
  (interval : Z) (methodName : string) (V : Type) (isTruthy : V -> bool)
  (className : string) (t1 t2 : Z) (does1 does2 : outcome V)
  (lastCalls : gmap string Z) (st : AsyncState V) :
  t1 <= t2 -> t2 - t1 < interval ->
  (interval <= t1 - default 0 (lastCalls !! keyOf methodName className) ->
   let sync1 := replacementMethodSync interval methodName className t1 does1
                  lastCalls in
   fst sync1 = Some does1 /\
   replacementMethodSync interval methodName className t2 does2 (snd sync1)
   = (None, snd sync1)) /\
  (interval <= t1 - default 0 (lastCallMap st !! keyOf methodName className) ->
   let async1 := replacementMethodAsync interval methodName isTruthy
                   className t1 does1 st in
   fst async1 = Executed does1 /\
   (truthyResult isTruthy does1 = true ->
    replacementMethodAsync interval methodName isTruthy className t2 does2
      (snd async1) = (Shared does1, snd async1)) /\
   (forall e, does1 = Throws e ->
      snd async1 = st /\
      fst (replacementMethodAsync interval methodName isTruthy className t2
             does2 (snd async1)) = Executed does2)).
Proof.
  intros Hmono Hin. split.
  - intros Hgo sync1. subst sync1. unfold replacementMethodSync.
    destruct (Z.leb_spec interval
                (t1 - default 0 (lastCalls !! keyOf methodName className)));
      [| lia].
    cbn [fst snd]. split; [reflexivity |].
    rewrite lookup_insert_eq. simpl.
    destruct (Z.leb_spec interval (t2 - t1)); [lia | reflexivity].
  - intros Hgo async1.
    assert (Hleb : (interval <=? t1 - default 0
                      (lastCallMap st !! keyOf methodName className)) = true)
      by now apply Z.leb_le.
    assert (Hfirst : fst async1 = Executed does1).
    { subst async1. unfold replacementMethodAsync. rewrite Hleb.
      now destruct does1. }
    split; [exact Hfirst |]. split.
    + intros Htruthy. subst async1.
      assert (Hrun : replacementMethodAsync interval methodName isTruthy
                       className t1 does1 st
                     = (Executed does1,
                        mkAsync (<[keyOf methodName className := t1]>
                                   (lastCallMap st))
                          (<[keyOf methodName className := does1]>
                             (lastResultMap st)))).
      { unfold replacementMethodAsync. rewrite Hleb.
        destruct does1; try reflexivity. discriminate Htruthy. }
      rewrite Hrun. cbn [snd]. unfold replacementMethodAsync.
      cbn [lastCallMap lastResultMap]. rewrite !lookup_insert_eq. simpl.
      destruct (Z.leb_spec interval (t2 - t1)); [lia |].
      now rewrite Htruthy.
    + intros e ->. subst async1.
      assert (Hrun : replacementMethodAsync interval methodName isTruthy
                       className t1 (Throws e) st
                     = (Executed (Throws e), st)).
      { unfold replacementMethodAsync. now rewrite Hleb. }
      rewrite Hrun. cbn [snd]. split; [reflexivity |].
      unfold replacementMethodAsync.
      destruct (Z.leb_spec interval
                  (t2 - default 0
                          (lastCallMap st !! keyOf methodName className)));
        [now destruct does2 | lia].
Qed.

Lemma X14_witness :
  replacementMethodSync 1000 "handleEvent" "EventHandler" 5400
    (Returns "again")
    (snd (replacementMethodSync (V:=string) 1000 "handleEvent"
            "EventHandler" 5000 (Throws (mkError "boom")) ∅))
  = (None, {["EventHandler.handleEvent" := 5000]}) /\
  fst (replacementMethodAsync 1000 "handleEvent" (fun _ : string => true)
         "EventHandler" 5400 (Resolves "again")
         (snd (replacementMethodAsync 1000 "handleEvent"
                 (fun _ : string => true) "EventHandler" 5000
                 (Throws (mkError "boom")) (mkAsync ∅ ∅))))
  = Executed (Resolves "again").
Proof.
  destruct (X14_throttle_inside_the_window 1000 "handleEvent" string
              (fun _ => true) "EventHandler" 5000 5400
              (Throws (mkError "boom")) (Returns "again") ∅ (mkAsync ∅ ∅))
    as [Hsync _]; [lia | lia |].
  destruct (X14_throttle_inside_the_window 1000 "handleEvent" string
              (fun _ => true) "EventHandler" 5000 5400
              (Throws (mkError "boom")) (Resolves "again") ∅ (mkAsync ∅ ∅))
    as [_ Hasync]; [lia | lia |].
  split.
  - destruct Hsync as [_ Hsecond]; [vm_compute; discriminate |].
    exact Hsecond.
  - destruct Hasync as (_ & _ & Hthrew); [vm_compute; discriminate |].
    apply (Hthrew (mkError "boom") eq_refl).
Defined.

End ThrottleMore.

(** ** GuardSync and RateLimited, in both orders *)

Module GuardMore.
Import Guard.

Section Facts.
Variable limit window : Z.
Variable methodName : string.
Context {V : Type}.

Lemma prune_all (windowStart : Z) (ts : list Z) :
  Forall (fun t => windowStart < t) ts ->
  RateLimited.prune windowStart ts = ts.
Proof.
  induction 1 as [| t ts Ht _ IH]; [reflexivity |].
  rewrite RateLimitedSpec.prune_cons_keep by exact Ht. now rewrite IH.
Qed.

(** Calls that the limiter lets through, all made within one window
    ending at [now], are recorded one after the other. *)
Lemma record_fills (instanceId : string) (does : outcome V) (now : Z)
    (times : list Z) :
  forall (recorded : list Z) (st : gmap string (list Z)),
    default [] (st !! RateLimited.keyOf methodName instanceId) = recorded ->
    Forall (fun t => now - window < t <= now) (recorded ++ times) ->
    Z.of_nat (length (recorded ++ times)) <= limit ->
    default []
      (fold_left
         (fun st t => snd (RateLimited.replacementMethod limit window
                             methodName instanceId t does st))
         times st
       !! RateLimited.keyOf methodName instanceId)
    = recorded ++ times.
Proof.
  induction times as [| t times IH]; intros recorded st Hrec Hwin Hlen.
  - now rewrite app_nil_r.
  - cbn [fold_left].
    assert (Ht : now - window < t <= now).
    { rewrite Forall_app in Hwin. destruct Hwin as [_ Hwin].
      now inversion Hwin. }
    assert (Hkept : RateLimited.prune (t - window) recorded = recorded).
    { apply prune_all. rewrite Forall_app in Hwin. destruct Hwin as [Hwin _].
      eapply Forall_impl; [exact Hwin |]. intros x Hx. simpl in Hx. lia. }
    rewrite length_app in Hlen. simpl in Hlen.
    rewrite RateLimitedSpec.under_limit by (rewrite Hrec, Hkept; lia).
    rewrite Hrec, Hkept.
    replace (recorded ++ t :: times) with ((recorded ++ [t]) ++ times)
      by now rewrite <- app_assoc.
    cbn [snd]. apply IH.
    + now rewrite lookup_insert_eq.
    + now rewrite <- app_assoc.
    + rewrite !length_app in *. simpl. lia.
Qed.

(** Under the guard, refused calls do not reach the limiter. *)
Lemma refused_outside (instanceId : string) (does : outcome V)
    (times : list Z) (st : gmap string (list Z)) :
  refusedCalls (guardedLimited limit window methodName) instanceId does
    times st = st.
Proof.
  revert st. induction times as [| t times IH]; intros st; [reflexivity |].
  simpl. apply IH.
Qed.

End Facts.

(** X15. The order of [@GuardSync] and [@RateLimited] decides whether
    refused calls use up the budget. Take [limit] calls, all refused by
    the guard, within one window ending at [now], on a fresh limiter,
    followed at [now] by a call that the guard accepts. With the
    limiter outermost each refused call was recorded, and the accepted
    call is turned away with 'Rate limit exceeded for <methodName>'
    without the target being invoked. With the guard outermost the
    refused calls left the limiter untouched, and the accepted call
    reaches the target. *)
Theorem X15_guard_and_rate_limit_order
  (limit window : Z) (methodName : string) (V : Type)
  (instanceId : string) (now : Z) (times : list Z) (does : outcome V) :
  1 <= limit ->
  Z.of_nat (length times) = limit ->
  Forall (fun t => now - window < t <= now) times ->
  (exists e,
      fst (limitedGuarded limit window methodName instanceId now (inr true)
             does
             (refusedCalls (limitedGuarded limit window methodName)
                instanceId does times ∅))
      = RateLimited.Throw e /\
      String.prefix ("Rate limit exceeded for " +:+ methodName) (message e)
      = true) /\
  fst (guardedLimited limit window methodName instanceId now (inr true) does
         (refusedCalls (guardedLimited limit window methodName)
            instanceId does times ∅))
  = RateLimited.TailCall does.
Proof.
  intros Hl Hlen Hwin. split.
  - unfold limitedGuarded, refusedCalls. cbn [GuardSync].
    pose proof (record_fills limit window methodName (V:=V) instanceId
                  (Throws (guardError methodName)) now times [] ∅)
      as Hfill.
    cbn [app] in Hfill. rewrite lookup_empty in Hfill.
    specialize (Hfill eq_refl Hwin ltac:(lia)).
    rewrite RateLimitedSpec.over_limit.
    + eexists. split; [reflexivity |].
      apply RateLimitedSpec.message_names_method.
    + rewrite Hfill, prune_all; [lia |].
      eapply Forall_impl; [exact Hwin |]. intros x Hx. simpl in Hx. lia.
  - rewrite refused_outside. unfold guardedLimited. cbn [GuardSync].
    rewrite RateLimitedSpec.under_limit; [reflexivity |].
    rewrite lookup_empty. simpl. lia.
Qed.

Lemma X15_witness :
  fst (limitedGuarded 2 100 "method" "Test" 50 (inr true) (Returns "result")
         (refusedCalls (limitedGuarded 2 100 "method") "Test"
            (Returns "result") [10; 20] ∅))
  = RateLimited.Throw
      (mkError "Rate limit exceeded for method. Try again in 1 seconds.") /\
  fst (guardedLimited 2 100 "method" "Test" 50 (inr true) (Returns "result")
         (refusedCalls (guardedLimited 2 100 "method") "Test"
            (Returns "result") [10; 20] ∅))
  = RateLimited.TailCall (Returns "result").
Proof.
  destruct (X15_guard_and_rate_limit_order 2 100 "method" string "Test" 50
              [10; 20] (Returns "result")) as [_ Houter].
  - lia.
  - reflexivity.
  - repeat constructor; lia.
  - split; [vm_compute; reflexivity | exact Houter].
Defined.

End GuardMore.

(** ** Validate, the field decorator *)

Module FieldValidateMore.
Import FieldValidate.

Section Facts.
Variable fieldName : string.
Context {V : Type}.
Variable parse : V -> parseResult V.

Lemma parsed_stays (values : list V) :
  forall v : V,
    is_Some (fold_left (fun acc value =>
                          match parse value with
                          | Parsed w => Some w
                          | _ => acc
                          end) values (Some v)).
Proof.
  induction values as [| value values IH]; intros v; simpl; [eauto |].
  destruct (parse value); apply IH.
Qed.

Lemma assignAll_from (values : list V) :
  forall (stored : V) (acc : option V),
    default stored acc = stored ->
    fold_left (fun stored value => snd (set fieldName parse value stored))
      values stored
    = default stored
        (fold_left (fun acc value =>
                      match parse value with
                      | Parsed v => Some v
                      | _ => acc
                      end) values acc).
Proof.
  induction values as [| value values IH]; intros stored acc Hacc;
    [symmetry; exact Hacc |].
  cbn [fold_left]. unfold set at 2.
  destruct (parse value) as [v | msg | e]; cbn [snd].
  - rewrite (IH v (Some v) eq_refl).
    now destruct (parsed_stays values v) as [w ->].
  - apply (IH stored acc Hacc).
  - apply (IH stored acc Hacc).
Qed.

End Facts.

(** X16. After any sequence of assignments to a validated field, the
    field reads as the parsed form of the last assigned value that the
    schema accepted, or, when none was accepted, as the value the
    initializer found on the instance, which is stored without being
    parsed: an assignment the schema rejects never changes the field. *)
Theorem X16_validated_field_keeps_last_accepted
  (fieldName : string) (V : Type) (parse : V -> parseResult V)
  (initial : V) (values : list V) :
  get (assignAll fieldName parse values (initialize initial))
  = default initial (lastParsed parse values) /\
  (forall value msg,
      parse value = ZodError msg ->
      forall stored : V,
        set fieldName parse value stored
        = (Some (mkError ("Validation failed for " +:+ fieldName +:+ ": "
                            +:+ msg)), stored)).
Proof.
  split.
  - unfold get, initialize, lastParsed, assignAll.
    apply (assignAll_from fieldName parse values initial None eq_refl).
  - intros value msg Hp stored. unfold set. now rewrite Hp.
Qed.

Lemma X16_witness :
  get (assignAll "age" ageSchema [30; 200; 42; -1] (initialize (-5))) = 42 /\
  set "age" ageSchema 200 42
  = (Some (mkError "Validation failed for age: Number out of range"), 42).
Proof.
  destruct (X16_validated_field_keeps_last_accepted "age" Z ageSchema (-5)
              [30; 200; 42; -1]) as [Hread Hrej].
  split; [exact Hread |].
  exact (Hrej 200 "Number out of range" eq_refl 42).
Defined.

End FieldValidateMore.

(** ** Scheduling: what registration leaves for cleanup *)

Module SchedulingMore.
Import Scheduling.
Import SchedulingSpec.

(** X17. When no two initializers of one decorator ran for the same
    method name, cleanup on the constructed instance makes exactly one
    runtime call per registration: the stops of the cron jobs, the
    interval clears and the timeout clears, each group in the order of
    registration. Every handle obtained is stopped, and there are as
    many runtime calls as registrations. *)
Theorem X17_cleanup_stops_all_registered
  (log : list registration) :
  NoDup (map (fun r => (kind r, method r)) log) ->
  let effects := snd (cleanup (registerAll log neverScheduled)) in
  effects = map stopOf (ofKind CronJob log)
            ++ map stopOf (ofKind IntervalTimer log)
            ++ map stopOf (ofKind TimeoutTimer log) /\
  (forall r, r ∈ log -> stopOf r ∈ effects) /\
  length effects = length log.
Proof.
  intros Hnd effects.
  assert (Hmaps : forall k,
             handles (mapOf k (registerAll log neverScheduled))
             = map snd (map (fun r => (method r, handle r)) (ofKind k log))).
  { intros k. unfold handles, map_values.
    rewrite handles_registerAll; [| now apply NoDup_methods_ofKind |].
    - now destruct k.
    - intros r _. destruct k; simpl; apply not_elem_of_nil. }
  assert (Heff : effects
                 = map stopOf (ofKind CronJob log)
                   ++ map stopOf (ofKind IntervalTimer log)
                   ++ map stopOf (ofKind TimeoutTimer log)).
  { subst effects. rewrite SchedulingSpec.cleanup_unfold. cbn [snd].
    destruct (SchedulingSpec.clearAll_spec JobStop
                (CRON_JOBS (registerAll log neverScheduled))) as (-> & _ & _).
    destruct (SchedulingSpec.clearAll_spec ClearInterval
                (INTERVALS (registerAll log neverScheduled))) as (-> & _ & _).
    destruct (SchedulingSpec.clearAll_spec ClearTimeout
                (TIMEOUTS (registerAll log neverScheduled))) as (-> & _ & _).
    pose proof (Hmaps CronJob) as Hc. pose proof (Hmaps IntervalTimer) as Hi.
    pose proof (Hmaps TimeoutTimer) as Ht. cbn [mapOf] in Hc, Hi, Ht.
    rewrite Hc, Hi, Ht.
    rewrite !stops_ofKind; [reflexivity | | |];
      intros r Hk; unfold stopOf; now rewrite Hk. }
  split; [exact Heff |]. split.
  - intros r Hr. rewrite Heff.
    assert (Hin : r ∈ ofKind (kind r) log)
      by (apply list_elem_of_filter; now split).
    rewrite !elem_of_app.
    destruct (kind r) eqn:Hk;
      [left | right; left | right; right];
      apply list_elem_of_fmap; exists r; (split; [reflexivity |]);
      exact Hin.
  - rewrite Heff, !length_app, !length_map.
    pose proof (length_by_kind log). lia.
Qed.

Lemma X17_witness :
  snd (cleanup (registerAll
                  [mkRegistration IntervalTimer "tick" 2;
                   mkRegistration CronJob "report" 1;
                   mkRegistration IntervalTimer "poll" 3] neverScheduled))
  = [JobStop 1; ClearInterval 2; ClearInterval 3].
Proof.
  destruct (X17_cleanup_stops_all_registered
              [mkRegistration IntervalTimer "tick" 2;
               mkRegistration CronJob "report" 1;
               mkRegistration IntervalTimer "poll" 3]) as (Heff & _ & _).
  - apply (bool_decide_unpack _). vm_compute. exact I.
  - exact Heff.
Defined.



End SchedulingMore.

(** ** Debounce: one pending execution per key *)

Module DebounceMore.
Import Debounce.

Section Facts.
Context {V Args : Type}.
Variable variant : Variant.
Variable methodName : string.
Variable target : Instance -> Args -> outcome V.

Lemma lookup_clearExisting_Some (existing : option nat)
    (timers : gmap nat (Instance * Args)) (h : nat) (c : Instance * Args) :
  clearExisting existing timers !! h = Some c ->
  timers !! h = Some c /\ existing <> Some h.
Proof.
  destruct existing as [h' |]; simpl; [| now split].
  destruct (decide (h' = h)) as [-> | Hne].
  - rewrite lookup_delete_eq. discriminate.
  - rewrite lookup_delete_ne by exact Hne. split; congruence.
Qed.

Lemma oneTimerPerKey_step (st : State V Args) (ev : event) :
  wellFormed st -> oneTimerPerKey methodName st ->
  oneTimerPerKey methodName (step variant methodName target st ev).
Proof.
  intros [Hfresh _] Hone. destruct ev as [this args | h0]; simpl.
  - intros h this' args'. simpl.
    destruct (decide (nextTimer st = h)) as [<- | Hne].
    + rewrite lookup_insert_eq. intros [= <- <-]. apply lookup_insert_eq.
    + rewrite lookup_insert_ne by exact Hne. intros Harmed.
      apply lookup_clearExisting_Some in Harmed as [Harmed Hother].
      specialize (Hone _ _ _ Harmed).
      destruct (decide (keyOf methodName this = keyOf methodName this'))
        as [Hk | Hk].
      * rewrite Hk in Hother. contradiction.
      * now rewrite lookup_insert_ne.
  - unfold fire. destruct (armed st !! h0) as [[this args] |] eqn:Hh;
      [| exact Hone].
    intros h this' args'. simpl.
    destruct (decide (h0 = h)) as [-> | Hne].
    + rewrite lookup_delete_eq. discriminate.
    + rewrite lookup_delete_ne by exact Hne. apply Hone.
Qed.

Lemma reachable_invariants (evs : list event) :
  forall st : State V Args,
    wellFormed st -> oneTimerPerKey methodName st ->
    wellFormed (run variant methodName target evs st) /\
    oneTimerPerKey methodName (run variant methodName target evs st).
Proof.
  induction evs as [| ev evs IH]; intros st Hwf Hone; [now split |].
  simpl. apply IH.
  - now apply DebounceSpec.wellFormed_step.
  - now apply oneTimerPerKey_step.
Qed.

Lemma oneTimerPerKey_initial :
  oneTimerPerKey (V:=V) (Args:=Args) methodName initial.
Proof. intros h this args. simpl. rewrite lookup_empty. discriminate. Qed.

End Facts.

(** X19. At most one timer is armed per key: after any sequence of
    calls and timer firings on a fresh decorator, two armed timers
    whose receivers have the same class name are one and the same
    timer, with the same receiver and arguments. *)
Theorem X19_debounce_one_timer_per_key
  (V Args : Type) (variant : Variant) (methodName : string)
  (target : Instance -> Args -> outcome V) (evs : list event)
  (h1 h2 : nat) (this1 this2 : Instance) (args1 args2 : Args) :
  let st := run variant methodName target evs initial in
  armed st !! h1 = Some (this1, args1) ->
  armed st !! h2 = Some (this2, args2) ->
  className this1 = className this2 ->
  h1 = h2 /\ this1 = this2 /\ args1 = args2.
Proof.
  intros st H1 H2 Hclass.
  destruct (reachable_invariants variant methodName target evs initial
              (DebounceSpec.wellFormed_initial)
              (oneTimerPerKey_initial methodName)) as [_ Hone].
  pose proof (Hone _ _ _ H1) as Hk1. pose proof (Hone _ _ _ H2) as Hk2.
  assert (Hkey : keyOf methodName this1 = keyOf methodName this2)
    by (unfold keyOf; now rewrite Hclass).
  rewrite Hkey in Hk1. fold st in Hk1, Hk2.
  assert (h1 = h2) by congruence. subst h2.
  split; [reflexivity |]. split; congruence.
Qed.

Lemma X19_witness :
  let st := run Sync "search" search
              [Call serviceA "a"; Call indexer "x"; Call serviceB "ab"]
              initial in
  armed st !! 2%nat = Some (serviceB, "ab") /\
  forall h this args,
    armed st !! h = Some (this, args) ->
    className this = className serviceB -> h = 2%nat.
Proof.
  intros st. split; [reflexivity |]. intros h this args Harmed Hclass.
  destruct (X19_debounce_one_timer_per_key string string Sync "search" search
              [Call serviceA "a"; Call indexer "x"; Call serviceB "ab"]
              h 2%nat this serviceB args "ab" Harmed eq_refl Hclass)
    as [Hh _].
  exact Hh.
Defined.

(** X20. A burst collapses into one execution. After any history, and
    however many calls were made for the key before, a call leaves
    exactly one timer armed for its key, its own; when that timer
    fires the target is invoked once, with the receiver and the
    arguments of this last call, and the timer is gone. *)
Theorem X20_debounce_last_call_is_the_pending_one
  (V Args : Type) (variant : Variant) (methodName : string)
  (target : Instance -> Args -> outcome V) (evs : list event)
  (this : Instance) (args : Args) :
  let before := run variant methodName target evs initial in
  let p := fst (replacementMethod methodName this args before) in
  let st := snd (replacementMethod methodName this args before) in
  armed st !! p = Some (this, args) /\
  (forall h this' args',
      armed st !! h = Some (this', args') ->
      className this' = className this ->
      h = p /\ this' = this /\ args' = args) /\
  executions (fire variant target p st) = executions before ++ [(this, args)] /\
  (forall h this' args',
      armed (fire variant target p st) !! h = Some (this', args') ->
      className this' <> className this).
Proof.
  intros before p st.
  destruct (reachable_invariants variant methodName target
              (evs ++ [Call this args]) initial
              (DebounceSpec.wellFormed_initial)
              (oneTimerPerKey_initial methodName)) as [_ Hone].
  unfold run in Hone. rewrite fold_left_app in Hone. cbn [fold_left step] in Hone.
  fold (run variant methodName target evs initial) in Hone.
  fold before in Hone. fold st in Hone.
  assert (Hown : armed st !! p = Some (this, args))
    by (subst st p; simpl; apply lookup_insert_eq).
  assert (Hmap : timeoutMap st !! keyOf methodName this = Some p)
    by (subst st p; simpl; apply lookup_insert_eq).
  assert (Honly : forall h this' args',
             armed st !! h = Some (this', args') ->
             className this' = className this ->
             h = p /\ this' = this /\ args' = args).
  { intros h this' args' Harmed Hclass.
    pose proof (Hone _ _ _ Harmed) as Hk.
    assert (Hkey : keyOf methodName this' = keyOf methodName this)
      by (unfold keyOf; now rewrite Hclass).
    rewrite Hkey, Hmap in Hk. injection Hk as <-.
    split; [reflexivity |]. split; congruence. }
  split; [exact Hown |]. split; [exact Honly |].
  unfold fire. rewrite Hown. cbn [executions armed].
  split; [reflexivity |].
  intros h this' args' Harmed Hclass.
  destruct (decide (p = h)) as [<- | Hne].
  - rewrite lookup_delete_eq in Harmed. discriminate.
  - rewrite lookup_delete_ne in Harmed by exact Hne.
    destruct (Honly _ _ _ Harmed Hclass) as [Hh _]. congruence.
Qed.

Lemma X20_witness :
  let st := run Sync "search" search
              [Call serviceA "a"; Call serviceA "ab"; Call serviceB "abc"]
              initial in
  armed st !! 2%nat = Some (serviceB, "abc") /\
  executions (fire Sync search 2%nat st) = [(serviceB, "abc")].
Proof.
  destruct (X20_debounce_last_call_is_the_pending_one string string Sync
              "search" search [Call serviceA "a"; Call serviceA "ab"]
              serviceB "abc") as (Hown & _ & Hexec & _).
  split; [exact Hown | exact Hexec].
Defined.

End DebounceMore.
